(** * Pipeline failure classification and retry consolidation

    A shallow embedding of [tasks/libs/pipeline/data.py]: the ordered table
    of infrastructure-failure log signatures, the job classifier
    ([get_job_failure_context]), job-name truncation, the reportability
    filter, the retry consolidator ([get_failed_jobs]) and the pull-request
    skip correlator ([get_jobs_skipped_on_pr]).

    Python strings are [string]s, lists are [list]s, the insertion-ordered
    [defaultdict(list)] is an association list that keeps the order in which
    keys were first seen, and calls that can raise (listing jobs, fetching a
    trace, looking up pull requests) return a [result]. *)

From Stdlib Require Import String Ascii List Bool Arith ZArith Lia.
From Stdlib Require Import Permutation Sorted.
Import ListNotations.
Local Open Scope string_scope.
Local Open Scope list_scope.

(* ===================================================================== *)
(** ** Errors *)
(* ===================================================================== *)

(** What a call into the CI or VCS platform can raise, plus the [IndexError]
    of [jobs[-1]] on an empty list. *)
Inductive exn : Type :=
| TransportError (msg : string)
| IndexError.

Inductive result (A : Type) : Type :=
| Ok (a : A)
| Raise (e : exn).

Arguments Ok {A} a.
Arguments Raise {A} e.

Definition bind {A B : Type} (c : result A) (k : A -> result B) : result B :=
  match c with
  | Ok a => k a
  | Raise e => Raise e
  end.

Notation "x <- c ;; k" := (bind c (fun x => k))
  (at level 61, c at next level, right associativity).

(* ===================================================================== *)
(** ** Strings *)
(* ===================================================================== *)

Module Str.

Definition colon : ascii := ":"%char.
Definition newline : ascii := ascii_of_nat 10.
Definition dquote : ascii := ascii_of_nat 34.

(** [s.split(":")[0]]: everything before the first colon, the whole
    string when there is none. *)
Fixpoint before_colon (s : string) : string :=
  match s with
  | EmptyString => EmptyString
  | String c s' => if Ascii.eqb c colon then EmptyString
                   else String c (before_colon s')
  end.

(** [s[:n]] for a non-negative [n]. *)
Fixpoint take (n : nat) (s : string) : string :=
  match n, s with
  | O, _ => EmptyString
  | S _, EmptyString => EmptyString
  | S n', String c s' => String c (take n' s')
  end.

Fixpoint has_colon (s : string) : bool :=
  match s with
  | EmptyString => false
  | String c s' => Ascii.eqb c colon || has_colon s'
  end.

(** Python truthiness of a [str]. *)
Definition is_empty (s : string) : bool :=
  match s with
  | EmptyString => true
  | String _ _ => false
  end.

(** [x in xs] for a list of strings. *)
Definition mem (x : string) (xs : list string) : bool :=
  existsb (String.eqb x) xs.

End Str.

(* ===================================================================== *)
(** ** Regular expressions

    The fragment of Python's [re] syntax that the tables of the module use:
    literal characters, [.] (any character but a newline), a character
    range such as [[0-9]], concatenation, [*] and [+].  None of the
    patterns has groups that are referred to, anchors or look-around, so
    [search] and [fullmatch] only depend on the language of the pattern;
    they are decided here with Brzozowski derivatives. *)
(* ===================================================================== *)

Module Re.

Inductive regex : Type :=
| Void
| Eps
| Chr (c : ascii)
| Dot
| Range (lo hi : ascii)
| Cat (r1 r2 : regex)
| Alt (r1 r2 : regex)
| Star (r : regex).

Definition Plus (r : regex) : regex := Cat r (Star r).

(** A literal string, character by character. *)
Fixpoint Lit (s : string) : regex :=
  match s with
  | EmptyString => Eps
  | String c s' => Cat (Chr c) (Lit s')
  end.

(** Concatenation of a list of pieces. *)
Fixpoint Seq (rs : list regex) : regex :=
  match rs with
  | [] => Eps
  | r :: rs' => Cat r (Seq rs')
  end.

Definition digit : regex := Range "0"%char "9"%char.

Fixpoint nullable (r : regex) : bool :=
  match r with
  | Void => false
  | Eps => true
  | Chr _ => false
  | Dot => false
  | Range _ _ => false
  | Cat r1 r2 => nullable r1 && nullable r2
  | Alt r1 r2 => nullable r1 || nullable r2
  | Star _ => true
  end.

Definition in_range (lo hi c : ascii) : bool :=
  Nat.leb (nat_of_ascii lo) (nat_of_ascii c)
  && Nat.leb (nat_of_ascii c) (nat_of_ascii hi).

(** Constructors that drop dead branches, so that derivatives stay small. *)
Definition cat (r1 r2 : regex) : regex :=
  match r1, r2 with
  | Void, _ => Void
  | _, Void => Void
  | Eps, _ => r2
  | _, _ => Cat r1 r2
  end.

Definition alt (r1 r2 : regex) : regex :=
  match r1, r2 with
  | Void, _ => r2
  | _, Void => r1
  | _, _ => Alt r1 r2
  end.

Fixpoint deriv (c : ascii) (r : regex) : regex :=
  match r with
  | Void => Void
  | Eps => Void
  | Chr d => if Ascii.eqb c d then Eps else Void
  | Dot => if Ascii.eqb c Str.newline then Void else Eps
  | Range lo hi => if in_range lo hi c then Eps else Void
  | Cat r1 r2 =>
      if nullable r1 then alt (cat (deriv c r1) r2) (deriv c r2)
      else cat (deriv c r1) r2
  | Alt r1 r2 => alt (deriv c r1) (deriv c r2)
  | Star r1 => cat (deriv c r1) (Star r1)
  end.

(** [pattern.fullmatch(s)]: the whole of [s] is in the language. *)
Fixpoint fullmatch (r : regex) (s : string) : bool :=
  match s with
  | EmptyString => nullable r
  | String c s' => fullmatch (deriv c r) s'
  end.

(** [pattern.match(s)]: some prefix of [s] is in the language. *)
Fixpoint match_prefix (r : regex) (s : string) : bool :=
  nullable r ||
  match s with
  | EmptyString => false
  | String c s' => match_prefix (deriv c r) s'
  end.

(** [pattern.search(s)]: a match starts at some position of [s], tried
    from left to right. *)
Fixpoint search (r : regex) (s : string) : bool :=
  match_prefix r s ||
  match s with
  | EmptyString => false
  | String _ s' => search r s'
  end.

(** The language of a pattern; [fullmatch_matches] and [search_matches]
    relate the matcher to it. *)
Inductive matches : regex -> string -> Prop :=
| MEps : matches Eps EmptyString
| MChr c : matches (Chr c) (String c EmptyString)
| MDot c : c <> Str.newline -> matches Dot (String c EmptyString)
| MRange lo hi c : in_range lo hi c = true ->
                   matches (Range lo hi) (String c EmptyString)
| MCat r1 r2 s1 s2 : matches r1 s1 -> matches r2 s2 ->
                     matches (Cat r1 r2) (s1 ++ s2)
| MAltL r1 r2 s : matches r1 s -> matches (Alt r1 r2) s
| MAltR r1 r2 s : matches r2 s -> matches (Alt r1 r2) s
| MStar0 r : matches (Star r) EmptyString
| MStarS r s1 s2 : matches r s1 -> matches (Star r) s2 ->
                   matches (Star r) (s1 ++ s2).

(** [any(pattern.fullmatch(name) for pattern in patterns)]. *)
Definition any_fullmatch (patterns : list regex) (name : string) : bool :=
  existsb (fun pattern => fullmatch pattern name) patterns.

End Re.

(* ===================================================================== *)
(** ** Taxonomy *)
(* ===================================================================== *)

(** Modelled from the spec: the enumeration [FailedJobType] of
    [tasks/libs/types/types.py] (section 3), with the three members the
    module uses. *)
Inductive FailedJobType : Type :=
| BRIDGE_FAILURE
| INFRA_FAILURE
| JOB_FAILURE.

(** Modelled from the spec: the enumeration [FailedJobReason] of
    [tasks/libs/types/types.py] (section 3), with the members the module
    names; it is open, and [OTHER_REASON] stands for any further member. *)
Inductive FailedJobReason : Type :=
| RUNNER
| GITLAB
| EC2_SPOT
| E2E_INFRA_FAILURE
| FAILED_BRIDGE_JOB
| FAILED_JOB_SCRIPT
| OTHER_REASON (label : string).

(* ===================================================================== *)
(** ** Job executions *)
(* ===================================================================== *)

(** The two classes [isinstance] tells apart. *)
Inductive JobKind : Type :=
| ProjectJob
| ProjectPipelineBridge.

(** One attempt to run a named job.  [created_at] is an instant; the
    module only compares two of them. *)
Record JobExecution : Type := mkJob {
  kind : JobKind;
  id : Z;
  name : string;
  stage : string;
  status : string;
  tag_list : list string;
  allow_failure : bool;
  web_url : string;
  created_at : Z;
  failure_reason : option string
}.

Definition is_bridge (job : JobExecution) : bool :=
  match kind job with
  | ProjectPipelineBridge => true
  | ProjectJob => false
  end.

(** The job object [get_failed_jobs] builds for the report. *)
Record FinalJobStatus : Type := mkFinal {
  fj_name : string;
  fj_full_name : string;
  fj_id : Z;
  fj_stage : string;
  fj_status : string;
  fj_tag_list : list string;
  fj_allow_failure : bool;
  fj_web_url : string;
  fj_retry_summary : list string;
  fj_failure_type : FailedJobType;
  fj_failure_reason : FailedJobReason
}.

(* ===================================================================== *)
(** ** Pattern table and classifier *)
(* ===================================================================== *)

(** [infra_failure_logs], in the order of the module. *)
Definition infra_failure_logs : list (Re.regex * FailedJobReason) :=
  [ (* Gitlab errors while pulling image on legacy runners *)
    (Re.Seq [Re.Lit "no basic auth credentials ("; Re.Star Re.Dot; Re.Lit ")"],
     RUNNER);
    (Re.Seq [Re.Lit "net/http: TLS handshake timeout ("; Re.Star Re.Dot;
             Re.Lit ")"],
     RUNNER);
    (* docker / docker-arm runner init failures *)
    (Re.Lit "Docker runner job start script failed", RUNNER);
    (Re.Lit "A disposable runner accepted this job, while it shouldn't have. Runners are meant to run just one job and be terminated.",
     RUNNER);
    (Re.Seq [Re.Lit "WARNING: Failed to pull image with policy ";
             Re.Chr Str.dquote; Re.Lit "always"; Re.Chr Str.dquote;
             Re.Lit ":"; Re.Star Re.Dot; Re.Lit "("; Re.Star Re.Dot;
             Re.Lit ")"],
     RUNNER);
    (* k8s Gitlab runner init failures *)
    (Re.Lit "Job failed (system failure): prepare environment: waiting for pod running: timed out waiting for pod to start",
     RUNNER);
    (Re.Lit "Job failed (system failure): prepare environment: setting up build pod: Internal error occurred: failed calling webhook",
     RUNNER);
    (* Gitlab 5xx errors *)
    (Re.Seq [Re.Lit "fatal: unable to access '"; Re.Star Re.Dot;
             Re.Lit "': The requested URL returned error: 5"; Re.Dot; Re.Dot],
     GITLAB);
    (* End to end tests EC2 Spot instances allocation failures *)
    (Re.Seq [Re.Lit "Failed to allocate end to end test EC2 Spot instance after ";
             Re.Plus Re.digit; Re.Lit " attempts"],
     EC2_SPOT);
    (Re.Seq [Re.Lit "Connection to "; Re.Plus Re.digit; Re.Lit ".";
             Re.Plus Re.digit; Re.Lit "."; Re.Plus Re.digit; Re.Lit ".";
             Re.Plus Re.digit; Re.Lit " closed by remote host."],
     EC2_SPOT);
    (* End to end tests internal infrastructure failures *)
    (Re.Lit "E2E INTERNAL ERROR", E2E_INFRA_FAILURE)
  ].

(** The loop [for regex, type in table: if regex.search(job_log): return type];
    [None] when it runs to its end. *)
Fixpoint scan_rules (table : list (Re.regex * FailedJobReason))
         (job_log : string) : option FailedJobReason :=
  match table with
  | [] => None
  | (regex, type) :: rest =>
      if Re.search regex job_log then Some type
      else scan_rules rest job_log
  end.

Definition get_infra_failure_info (job_log : string) : option FailedJobReason :=
  (* No Gitlab trace means infra failure from Gitlab *)
  if Str.is_empty job_log then Some GITLAB
  else scan_rules infra_failure_logs job_log.

Section Classifier.

(** Modelled from the spec: [FailedJobReason.get_infra_failure_mapping],
    the fixed table from platform failure codes to the reasons they stand
    for (section 4.1); its declaration is in [tasks/libs/types/types.py].
    It is a dictionary, taken here as a parameter. *)
Variable get_infra_failure_mapping : list (string * FailedJobReason).

(** Modelled from the spec: [FailedJobReason.from_gitlab_job_failure_reason],
    the reason the table gives for a platform code, absent for a code the
    table does not have (section 4.1). *)
Fixpoint lookup_code (table : list (string * FailedJobReason))
         (code : string) : option FailedJobReason :=
  match table with
  | [] => None
  | (k, v) :: rest => if String.eqb k code then Some v
                      else lookup_code rest code
  end.

Definition from_gitlab_job_failure_reason (code : string)
  : option FailedJobReason :=
  lookup_code get_infra_failure_mapping code.

(** [job.failure_reason in infra_failure_reasons], followed by the lookup
    of the reason. *)
Definition infra_mapped_reason (job : JobExecution) : option FailedJobReason :=
  match failure_reason job with
  | None => None
  | Some code => from_gitlab_job_failure_reason code
  end.

Definition get_job_failure_context (job : JobExecution) (job_log : string)
  : FailedJobType * FailedJobReason :=
  if is_bridge job then (BRIDGE_FAILURE, FAILED_BRIDGE_JOB)
  else
    match infra_mapped_reason job with
    | Some reason => (INFRA_FAILURE, reason)
    | None =>
        match get_infra_failure_info job_log with
        | Some type => (INFRA_FAILURE, type)
        | None => (JOB_FAILURE, FAILED_JOB_SCRIPT)
        end
    end.

End Classifier.

(* ===================================================================== *)
(** ** Names and reportability *)
(* ===================================================================== *)

(** These jobs are allowed to have their full name in the data:
    [kmt_run_.+_tests_.*]. *)
Definition jobs_allowed_to_have_full_names : list Re.regex :=
  [ Re.Seq [Re.Lit "kmt_run_"; Re.Plus Re.Dot; Re.Lit "_tests_"; Re.Star Re.Dot] ].

Definition max_char_per_job_default : nat := 48.

Definition truncate_job_name (job_name : string) (max_char_per_job : nat)
  : string :=
  if Re.any_fullmatch jobs_allowed_to_have_full_names job_name then job_name
  else
    (* Job header should be before the colon *)
    let truncated_job_name := Str.before_colon job_name in
    (* We also want to avoid it being too long *)
    Str.take max_char_per_job truncated_job_name.

(** Those jobs have [allow_failure: true] but still need to be included in
    failure reports: the list is empty in the module. *)
Definition jobs_allowed_to_fail_but_need_report : list Re.regex := [].

Definition should_report_job (job_name : string) (allow_failure : bool) : bool :=
  negb allow_failure
  || Re.any_fullmatch jobs_allowed_to_fail_but_need_report job_name.

(* ===================================================================== *)
(** ** The failure report *)
(* ===================================================================== *)

(** Modelled from the spec: the [FailedJobs] container of
    [tasks/libs/types/types.py] (section 3, FailureReport): the entries
    added to it, split into the mandatory ones and the ones excluded by the
    allow-failure policy (section 4.4, step 7), each part in the order of
    addition. *)
Record FailedJobs : Type := mkFailedJobs {
  mandatory_failures : list FinalJobStatus;
  excluded_failures : list FinalJobStatus
}.

Definition empty_FailedJobs : FailedJobs := mkFailedJobs [] [].

(** Modelled from the spec: [FailedJobs.add_failed_job]; an entry is
    mandatory unless it is allowed to fail and its display name matches no
    pattern of the report-despite-allowed-failure list. *)
Definition add_failed_job (report : FailedJobs) (job : FinalJobStatus)
  : FailedJobs :=
  if should_report_job (fj_name job) (fj_allow_failure job)
  then mkFailedJobs (mandatory_failures report ++ [job])
                    (excluded_failures report)
  else mkFailedJobs (mandatory_failures report)
                    (excluded_failures report ++ [job]).

(** Modelled from the spec: [FailedJobs.all_mandatory_failures]. *)
Definition all_mandatory_failures (report : FailedJobs) : list FinalJobStatus :=
  mandatory_failures report.

(** Every entry the report holds. *)
Definition all_failures (report : FailedJobs) : list FinalJobStatus :=
  mandatory_failures report ++ excluded_failures report.

(* ===================================================================== *)
(** ** Grouping and sorting *)
(* ===================================================================== *)

(** [defaultdict(list)] keyed by job name: keys stay in the order of their
    first insertion, which is the order [items()] yields them in. *)
Module Dict.

Definition t : Type := list (string * list JobExecution).

(** [d[k].append(job)] *)
Fixpoint append (d : t) (k : string) (job : JobExecution) : t :=
  match d with
  | [] => [(k, [job])]
  | (k', jobs) :: d' =>
      if String.eqb k' k then (k', jobs ++ [job]) :: d'
      else (k', jobs) :: append d' k job
  end.

(** The list stored under [k], empty when [k] is not a key. *)
Fixpoint get (d : t) (k : string) : list JobExecution :=
  match d with
  | [] => []
  | (k', jobs) :: d' => if String.eqb k' k then jobs else get d' k
  end.

Definition keys (d : t) : list string := map fst d.

End Dict.

Definition is_failed (job : JobExecution) : bool :=
  String.eqb (status job) "failed".

(** The first loop of [get_failed_jobs]: instances of failed jobs grouped
    by name. *)
Definition group_step (failed_jobs : Dict.t) (job : JobExecution) : Dict.t :=
  if is_failed job then Dict.append failed_jobs (name job) job
  else failed_jobs.

Definition group_failed (jobs : list JobExecution) : Dict.t :=
  fold_left group_step jobs [].

(** [jobs.sort(key=lambda x: x.created_at)]: a stable sort, equal keys keep
    their relative order. *)
Fixpoint insert_by_created_at (job : JobExecution) (sorted : list JobExecution)
  : list JobExecution :=
  match sorted with
  | [] => [job]
  | j :: rest =>
      if Z.leb (created_at job) (created_at j) then job :: j :: rest
      else j :: insert_by_created_at job rest
  end.

Definition sort_by_created_at (jobs : list JobExecution) : list JobExecution :=
  fold_right insert_by_created_at [] jobs.

(** [jobs[-1]], which raises [IndexError] on an empty list. *)
Fixpoint last_job (jobs : list JobExecution) : result JobExecution :=
  match jobs with
  | [] => Raise IndexError
  | [job] => Ok job
  | _ :: rest => last_job rest
  end.

(* ===================================================================== *)
(** ** Pipelines *)
(* ===================================================================== *)

(** A pipeline handle: its commit, its URL, and what listing its jobs and
    its bridges answers. *)
Record ProjectPipeline : Type := mkPipeline {
  sha : string;
  pipeline_web_url : string;
  jobs_list : result (list JobExecution);
  bridges_list : result (list JobExecution)
}.

Record PullRequest : Type := mkPR {
  number : Z;
  head_ref : string
}.

(** What the correlator prints. *)
Inductive message : Type :=
| MultiplePRsFound (commit : string) (numbers : list Z)
| NoPipelineFound (branch : string).

(* ===================================================================== *)
(** ** Retry consolidation: [get_failed_jobs] *)
(* ===================================================================== *)

Section Consolidator.

Variable get_infra_failure_mapping : list (string * FailedJobReason).

(** [repo.jobs.get(job.id, lazy=True).trace()], decoded. *)
Variable trace : Z -> result string.

(** The job object built for one group: [job] is the last attempt of the
    sorted list [jobs], [log] its trace. *)
Definition final_status_of (job_name : string) (jobs : list JobExecution)
           (job : JobExecution) (log : string) : FinalJobStatus :=
  let name := truncate_job_name job_name max_char_per_job_default in
  let is_standard_job := negb (is_bridge job) in
  let '(failure_type, failure_reason) :=
    get_job_failure_context get_infra_failure_mapping job log in
  {| fj_name := name;
     fj_full_name := job_name;
     fj_id := id job;
     fj_stage := stage job;
     fj_status := status job;
     fj_tag_list := if is_standard_job then tag_list job else [];
     fj_allow_failure := allow_failure job;
     fj_web_url := web_url job;
     fj_retry_summary := map status jobs;
     fj_failure_type := failure_type;
     fj_failure_reason := failure_reason |}.

(** The body of the second loop for one item of the dictionary. *)
Definition process_group (processed_failed_jobs : FailedJobs)
           (job_name : string) (jobs : list JobExecution)
  : result FailedJobs :=
  (* We sort each list per creation date *)
  let jobs := sort_by_created_at jobs in
  (* We truncate the job name to increase readability *)
  let name := truncate_job_name job_name max_char_per_job_default in
  job <- last_job jobs ;;
  let is_standard_job := negb (is_bridge job) in
  (* Check the final job in the list: it contains the current status of
     the job *)
  log <- (if is_standard_job then trace (id job) else Ok "") ;;
  let final_status := final_status_of job_name jobs job log in
  (* Also exclude jobs allowed to fail *)
  if String.eqb (fj_status final_status) "failed"
     && should_report_job name (fj_allow_failure final_status)
  then Ok (add_failed_job processed_failed_jobs final_status)
  else Ok processed_failed_jobs.

Fixpoint process_groups (failed_jobs : Dict.t)
         (processed_failed_jobs : FailedJobs) : result FailedJobs :=
  match failed_jobs with
  | [] => Ok processed_failed_jobs
  | (job_name, jobs) :: rest =>
      processed <- process_group processed_failed_jobs job_name jobs ;;
      process_groups rest processed
  end.

Definition get_failed_jobs (pipeline : ProjectPipeline) : result FailedJobs :=
  jobs <- jobs_list pipeline ;;
  bridges <- bridges_list pipeline ;;
  (* Add bridge jobs to the list of jobs, as they can fail the pipeline *)
  let jobs := jobs ++ bridges in
  process_groups (group_failed jobs) empty_FailedJobs.

End Consolidator.

(* ===================================================================== *)
(** ** Pull-request skip correlation: [get_jobs_skipped_on_pr] *)
(* ===================================================================== *)

Definition terminal_status (job : JobExecution) : bool :=
  Str.mem (status job) ["failed"; "success"].

(** The inner loop [for job in jobs] with its [break]; it carries the
    [generated] flag and the list of missed jobs. *)
Fixpoint scan_pr_jobs (jobs : list JobExecution) (failed_job : FinalJobStatus)
         (generated : bool) (missed_jobs : list string)
  : bool * list string :=
  match jobs with
  | [] => (generated, missed_jobs)
  | job :: rest =>
      if String.eqb (name job) (fj_full_name failed_job) then
        if negb (terminal_status job)
        then (true, missed_jobs ++ [fj_name failed_job])
        else scan_pr_jobs rest failed_job true missed_jobs
      else scan_pr_jobs rest failed_job generated missed_jobs
  end.

(** One turn of the outer loop. *)
Definition correlate_step (jobs : list JobExecution)
           (missed_jobs : list string) (failed_job : FinalJobStatus)
  : list string :=
  let '(generated, missed_jobs) := scan_pr_jobs jobs failed_job false missed_jobs in
  if negb generated then missed_jobs ++ [fj_name failed_job]
  else missed_jobs.

Definition correlate (jobs : list JobExecution)
           (failures : list FinalJobStatus) (missed_jobs : list string)
  : list string :=
  fold_left (correlate_step jobs) failures missed_jobs.

Section Correlator.

(** [gh._repository.get_commit(sha).get_pulls()] *)
Variable get_pulls : string -> result (list PullRequest).

(** [agent.pipelines.list(ref=branch, get_all=False)] *)
Variable pipelines_list : string -> result (list ProjectPipeline).

(** The result is what was printed, and either the pair returned or the
    exception raised. *)
Definition get_jobs_skipped_on_pr (pipeline : ProjectPipeline)
           (failed_jobs : FailedJobs)
  : list message * result (list string * string) :=
  let missed_jobs : list string := [] in
  match get_pulls (sha pipeline) with
  | Raise e => ([], Raise e)
  | Ok prs =>
      if Nat.eqb (length prs) 0 then ([], Ok (missed_jobs, ""))
      else if Nat.ltb 1 (length prs) then
        ([MultiplePRsFound (sha pipeline) (map number prs)],
         Ok (missed_jobs, ""))
      else
        match prs with
        | [] => ([], Raise IndexError)
        | pr :: _ =>
            let branch := head_ref pr in
            match pipelines_list branch with
            | Raise e => ([], Raise e)
            | Ok pipelines =>
                if Nat.eqb (length pipelines) 0 then
                  ([NoPipelineFound branch], Ok (missed_jobs, ""))
                else
                  match pipelines with
                  | [] => ([], Raise IndexError)
                  | pr_pipeline :: _ =>
                      ([],
                       jobs <- jobs_list pr_pipeline ;;
                       bridges <- bridges_list pr_pipeline ;;
                       let jobs := jobs ++ bridges in
                       Ok (correlate jobs
                                     (all_mandatory_failures failed_jobs)
                                     missed_jobs,
                           pipeline_web_url pr_pipeline))
                  end
            end
        end
  end.

End Correlator.

(* ===================================================================== *)
(** ** Vocabulary of the statements *)
(* ===================================================================== *)

(** Every execution of the input that bears the name [n]. *)
Definition attempts (jobs : list JobExecution) (n : string) : list JobExecution :=
  filter (fun job => String.eqb (name job) n) jobs.

(** The failed executions of the input that bear the name [n]. *)
Definition failed_attempts (jobs : list JobExecution) (n : string)
  : list JobExecution :=
  filter (fun job => is_failed job && String.eqb (name job) n) jobs.

(** A dictionary: no key twice; here no key holds an empty list either. *)
Definition dict_wf (d : Dict.t) : Prop :=
  NoDup (Dict.keys d) /\ forall k jobs, In (k, jobs) d -> jobs <> [].

(** The order [sort_by_created_at] sorts for. *)
Definition earlier_or_same (a b : JobExecution) : Prop :=
  (created_at a <= created_at b)%Z.

(** The trace [get_failed_jobs] asks for: none for a bridge. *)
Definition job_log (trace : Z -> result string) (job : JobExecution)
  : result string :=
  if negb (is_bridge job) then trace (id job) else Ok "".

(** [entry] is the job object [get_failed_jobs] builds for the group stored
    under [job_name]: that of the last attempt of the sorted group, with the
    trace fetched for it. *)
Definition entry_of (get_infra_failure_mapping : list (string * FailedJobReason))
           (trace : Z -> result string) (job_name : string)
           (group : list JobExecution) (entry : FinalJobStatus) : Prop :=
  exists job log,
    last_job (sort_by_created_at group) = Ok job
    /\ job_log trace job = Ok log
    /\ entry = final_status_of get_infra_failure_mapping job_name
                               (sort_by_created_at group) job log.

(** The report has an entry for the job name [n]. *)
Definition reported (report : FailedJobs) (n : string) : Prop :=
  exists entry, In entry (all_failures report) /\ fj_full_name entry = n.

(** The specification's reading of a failed log fetch: an empty log. *)
Definition trace_or_empty (trace : Z -> result string) (job_id : Z)
  : result string :=
  match trace job_id with
  | Ok log => Ok log
  | Raise _ => Ok ""
  end.

(** [job.name == failed_job.full_name] *)
Definition same_name (failed_job : FinalJobStatus) (job : JobExecution) : bool :=
  String.eqb (name job) (fj_full_name failed_job).

(** The specification's rule for a skipped job (section 4.5, step 4): no
    execution of the pull-request pipeline bears the full name, or one that
    does has a status that is neither [failed] nor [success]. *)
Definition skipped_on_pr (jobs : list JobExecution) (failed_job : FinalJobStatus)
  : bool :=
  negb (existsb (fun job => String.eqb (name job) (fj_full_name failed_job)) jobs)
  || existsb (fun job => String.eqb (name job) (fj_full_name failed_job)
                         && negb (terminal_status job)) jobs.

(** No character of [s] is a newline, the one character [.] rejects. *)
Fixpoint no_newline (s : string) : bool :=
  match s with
  | EmptyString => true
  | String c s' => negb (Ascii.eqb c Str.newline) && no_newline s'
  end.

(** The elements of [l] in the order of their first occurrence, leaving
    out those of [seen]. *)
Fixpoint first_occurrences (seen l : list string) : list string :=
  match l with
  | [] => []
  | x :: l' => if Str.mem x seen then first_occurrences seen l'
               else x :: first_occurrences (x :: seen) l'
  end.

(** The names of the failed executions, each once, in the order in which a
    failed execution first bears them. *)
Definition failed_names (jobs : list JobExecution) : list string :=
  first_occurrences [] (map name (filter is_failed jobs)).


(* ===================================================================== *)
(** ** Concrete pipelines *)
(* ===================================================================== *)

Module Ex.

(** A platform-code table with the codes section 4.1 gives as examples. *)
Definition mapping : list (string * FailedJobReason) :=
  [ ("runner_system_failure", RUNNER);
    ("stuck_or_timeout_failure", GITLAB);
    ("runner_unsupported", RUNNER) ].

Definition job (n : string) (i : Z) (st : string) (t : Z) (af : bool)
  : JobExecution :=
  mkJob ProjectJob i n "test" st ["arch:amd64"] af "https://ci/job" t None.

Definition bridge (n : string) (i : Z) (st : string) (t : Z) : JobExecution :=
  mkJob ProjectPipelineBridge i n "trigger" st [] false "https://ci/bridge" t
        None.

Definition pipeline_of (jobs bridges : list JobExecution) : ProjectPipeline :=
  mkPipeline "c0ffee" "https://ci/pipeline/1" (Ok jobs) (Ok bridges).

(** Every trace is fetched, with a script error in it. *)
Definition trace_ok (_ : Z) : result string := Ok "make: *** [test] Error 1".

(** The trace of job 1 cannot be fetched. *)
Definition trace_flaky (job_id : Z) : result string :=
  if Z.eqb job_id 1 then Raise (TransportError "502 Bad Gateway")
  else Ok "make: *** [test] Error 1".

(** A job that failed, was retried and succeeded. *)
Definition retried : ProjectPipeline :=
  pipeline_of [ job "unit_tests" 1 "failed" 10 false;
                job "unit_tests" 2 "success" 20 false ] [].

(** One failed job that is allowed to fail. *)
Definition allowed : ProjectPipeline :=
  pipeline_of [ job "lint" 1 "failed" 10 true ] [].

(** Two failed jobs, a failed bridge. *)
Definition two_failed : ProjectPipeline :=
  pipeline_of [ job "build:amd64" 1 "failed" 10 false;
                job "build:arm64" 2 "failed" 11 false ]
              [ bridge "deploy" 3 "failed" 12 ].

(** Three failed attempts of one job, given out of order. *)
Definition thrice : ProjectPipeline :=
  pipeline_of [ job "e2e" 7 "failed" 30 false;
                job "e2e" 5 "failed" 10 false;
                job "e2e" 6 "failed" 20 false ] [].

(** A job that failed, succeeded on a retry and failed on a later one. *)
Definition unstable : ProjectPipeline :=
  pipeline_of [ job "e2e" 1 "failed" 10 false;
                job "e2e" 2 "success" 20 false;
                job "e2e" 3 "failed" 30 false ] [].

(** A failed job that is allowed to fail next to one that is not. *)
Definition lint_and_build : ProjectPipeline :=
  pipeline_of [ job "lint" 1 "failed" 10 true;
                job "build" 2 "failed" 11 false ] [].

Definition one_pr (_ : string) : result (list PullRequest) :=
  Ok [ mkPR 42 "feature" ].

Definition no_pr (_ : string) : result (list PullRequest) := Ok [].

Definition two_prs (_ : string) : result (list PullRequest) :=
  Ok [ mkPR 42 "feature"; mkPR 43 "backport" ].

Definition no_pipeline (_ : string) : result (list ProjectPipeline) := Ok [].

(** The pull-request pipeline ran [build:amd64] to success, is still
    running [build:arm64] and never had [deploy]. *)
Definition pr_pipeline : ProjectPipeline :=
  mkPipeline "beef" "https://ci/pipeline/2"
             (Ok [ job "build:amd64" 11 "success" 1 false;
                   job "build:arm64" 12 "running" 1 false;
                   job "Deploy" 13 "success" 1 false ])
             (Ok []).

(** A pull-request pipeline that finished neither build and ran the
    bridge. *)
Definition pr_pipeline_idle : ProjectPipeline :=
  mkPipeline "f00d" "https://ci/pipeline/3"
             (Ok [ job "build:amd64" 21 "canceled" 1 false;
                   job "build:arm64" 22 "pending" 1 false ])
             (Ok [ bridge "deploy" 23 "success" 1 ]).

Definition pr_pipelines_idle (_ : string) : result (list ProjectPipeline) :=
  Ok [ pr_pipeline_idle ].

Definition pr_pipelines (_ : string) : result (list ProjectPipeline) :=
  Ok [ pr_pipeline ].

Definition sixty : string :=
  "aaaaaaaaaabbbbbbbbbbccccccccccddddddddddeeeeeeeeeeffffffffff".

(** A log with a runner image-pull message and the E2E marker. *)
Definition both_signatures : string :=
  String.append
    "WARNING: Failed to pull image with policy "
    (String Str.dquote
       (String.append "always"
          (String Str.dquote
             ": rpc error (manifest unknown) ... E2E INTERNAL ERROR"))).

(** No trace can be fetched. *)
Definition trace_down (_ : Z) : result string :=
  Raise (TransportError "503 Service Unavailable").

(** Traces are fetched for the jobs 1 and 2 only. *)
Definition trace_two (job_id : Z) : result string :=
  if Z.eqb job_id 1 || Z.eqb job_id 2 then Ok "make: *** [test] Error 1"
  else Raise (TransportError "404 Not Found").

(** A pipeline without a failure. *)
Definition green : ProjectPipeline :=
  pipeline_of [ job "build" 1 "success" 10 false;
                job "lint" 2 "skipped" 11 true ]
              [ bridge "deploy" 3 "success" 12 ].

(** [thrice], given in another order. *)
Definition thrice_shuffled : ProjectPipeline :=
  pipeline_of [ job "e2e" 5 "failed" 10 false;
                job "e2e" 6 "failed" 20 false;
                job "e2e" 7 "failed" 30 false ] [].

(** Two failed attempts created at the same instant. *)
Definition tied : list JobExecution :=
  [ job "e2e" 1 "failed" 10 false;
    job "e2e" 2 "failed" 20 false;
    job "e2e" 3 "failed" 20 true;
    job "e2e" 4 "failed" 15 false ].

(** A log with a script error only. *)
Definition script_error : string := "make: *** [test] Error 1".

(** A name of the family that keeps its full name, longer than 48
    characters and with a colon. *)
Definition kmt_long : string :=
  "kmt_run_security_agent_tests_x64: [ubuntu_24.04, distro_x86_64]".

End Ex.

(* ===================================================================== *)
(** * Properties *)
(* ===================================================================== *)

(** ** The error monad *)

Lemma bind_Ok_inv (A B : Type) (c : result A) (k : A -> result B) (b : B) :
  bind c k = Ok b -> exists a, c = Ok a /\ k a = Ok b.
Proof.
  destruct c as [a | e]; simpl; intros H.
  - exists a. split; [reflexivity | exact H].
  - discriminate H.
Qed.


(** ** Strings *)

Lemma string_length_take (n : nat) (s : string) :
  String.length (Str.take n s) = Nat.min n (String.length s).
Proof.
  revert s. induction n as [| n IH]; intros s.
  - reflexivity.
  - destruct s as [| c s]; simpl.
    + reflexivity.
    + now rewrite IH.
Qed.

Lemma before_colon_no_colon (s : string) :
  Str.has_colon s = false -> Str.before_colon s = s.
Proof.
  induction s as [| c s IH]; simpl.
  - reflexivity.
  - destruct (Ascii.eqb c Str.colon); simpl.
    + discriminate.
    + intros H. now rewrite IH.
Qed.


(** ** Regular expressions: the matcher decides the language *)

Lemma string_app_eq_nil (s1 s2 : string) :
  (s1 ++ s2)%string = "" -> s1 = "" /\ s2 = "".
Proof. destruct s1; simpl; [auto | discriminate]. Qed.

Lemma string_app_eq_cons (s1 s2 s : string) (c : ascii) :
  (s1 ++ s2)%string = String c s ->
  (s1 = "" /\ s2 = String c s)
  \/ exists s1', s1 = String c s1' /\ s = (s1' ++ s2)%string.
Proof.
  destruct s1 as [| c1 s1]; simpl; intros H.
  - left. auto.
  - right. injection H as -> <-. exists s1. auto.
Qed.

Lemma matches_Cat_inv (r1 r2 : Re.regex) (s : string) :
  Re.matches (Re.Cat r1 r2) s ->
  exists s1 s2, s = (s1 ++ s2)%string /\ Re.matches r1 s1 /\ Re.matches r2 s2.
Proof. intros H. inversion H; subst. eauto. Qed.

Lemma matches_Alt_inv (r1 r2 : Re.regex) (s : string) :
  Re.matches (Re.Alt r1 r2) s -> Re.matches r1 s \/ Re.matches r2 s.
Proof. intros H. inversion H; subst; auto. Qed.

Lemma matches_cat_nil_l (r : Re.regex) (s : string) :
  Re.matches r s -> Re.matches (Re.Cat Re.Eps r) s.
Proof.
  intros H. change s with ("" ++ s)%string. constructor; [constructor | exact H].
Qed.

Lemma matches_cat (r1 r2 : Re.regex) (s : string) :
  Re.matches (Re.cat r1 r2) s <-> Re.matches (Re.Cat r1 r2) s.
Proof.
  split.
  - destruct r1; simpl; try (intros H; now inversion H);
      destruct r2; simpl; intros H;
      try exact H; try (now inversion H); try (now apply matches_cat_nil_l).
  - intros H. apply matches_Cat_inv in H. destruct H as (s1 & s2 & -> & H1 & H2).
    destruct r1; simpl; try (now inversion H1);
      destruct r2; simpl; try (now inversion H2);
      try (now constructor);
      inversion H1; subst; simpl; exact H2.
Qed.

Lemma matches_alt (r1 r2 : Re.regex) (s : string) :
  Re.matches (Re.alt r1 r2) s <-> Re.matches (Re.Alt r1 r2) s.
Proof.
  split.
  - destruct r1; simpl; try (intros H; now apply Re.MAltR);
      destruct r2; simpl; intros H;
      try exact H; try (now apply Re.MAltL).
  - intros H. apply matches_Alt_inv in H. destruct H as [H1 | H2].
    + destruct r1; simpl; try (now inversion H1);
        destruct r2; simpl; try exact H1; now apply Re.MAltL.
    + destruct r1; simpl; try exact H2;
        destruct r2; simpl; try (now inversion H2); now apply Re.MAltR.
Qed.

Lemma nullable_matches (r : Re.regex) :
  Re.nullable r = true <-> Re.matches r "".
Proof.
  induction r as [| | c | | lo hi | r1 IH1 r2 IH2 | r1 IH1 r2 IH2 | r IH]; simpl.
  - split; [discriminate | intros H; inversion H].
  - split; [constructor | reflexivity].
  - split; [discriminate | intros H; inversion H].
  - split; [discriminate | intros H; inversion H].
  - split; [discriminate | intros H; inversion H].
  - rewrite andb_true_iff, IH1, IH2. split.
    + intros [H1 H2]. change "" with ("" ++ "")%string. now constructor.
    + intros H. apply matches_Cat_inv in H.
      destruct H as (s1 & s2 & Heq & H1 & H2). symmetry in Heq.
      apply string_app_eq_nil in Heq. destruct Heq as [-> ->]. auto.
  - rewrite orb_true_iff, IH1, IH2. split.
    + intros [H | H]; [now apply Re.MAltL | now apply Re.MAltR].
    + intros H. apply matches_Alt_inv in H. tauto.
  - split; [constructor | reflexivity].
Qed.

Lemma matches_star_cons (r : Re.regex) (c : ascii) (s : string) :
  Re.matches (Re.Star r) (String c s) ->
  exists s1 s2, s = (s1 ++ s2)%string
                /\ Re.matches r (String c s1) /\ Re.matches (Re.Star r) s2.
Proof.
  intros H. remember (Re.Star r) as r' eqn:Er.
  remember (String c s) as s' eqn:Es.
  revert s Es.
  induction H as [| | | | | | | | r0 s1 s2 H1 _ H2 IH2]; try discriminate.
  intros s Es. injection Er as ->.
  apply string_app_eq_cons in Es. destruct Es as [[-> ->] | (s1' & -> & ->)].
  - now apply IH2.
  - exists s1', s2. auto.
Qed.

Lemma deriv_matches (c : ascii) (r : Re.regex) (s : string) :
  Re.matches (Re.deriv c r) s <-> Re.matches r (String c s).
Proof.
  revert s.
  induction r as [| | d | | lo hi | r1 IH1 r2 IH2 | r1 IH1 r2 IH2 | r IH];
    intros s; simpl.
  - split; intros H; inversion H.
  - split; intros H; inversion H.
  - destruct (Ascii.eqb c d) eqn:E.
    + apply Ascii.eqb_eq in E. subst d. split; intros H; inversion H; subst;
        constructor.
    + apply Ascii.eqb_neq in E. split; intros H; inversion H; subst.
      congruence.
  - destruct (Ascii.eqb c Str.newline) eqn:E.
    + apply Ascii.eqb_eq in E. split; intros H; inversion H; subst. congruence.
    + apply Ascii.eqb_neq in E. split; intros H; inversion H; subst.
      * now constructor.
      * constructor.
  - destruct (Re.in_range lo hi c) eqn:E.
    + split; intros H; inversion H; subst; [now constructor | constructor].
    + split; intros H; inversion H; subst. congruence.
  - assert (Hcat : Re.matches (Re.cat (Re.deriv c r1) r2) s <->
                   exists s1 s2, s = (s1 ++ s2)%string
                                 /\ Re.matches r1 (String c s1)
                                 /\ Re.matches r2 s2).
    { rewrite matches_cat. split.
      - intros H. apply matches_Cat_inv in H.
        destruct H as (s1 & s2 & -> & H1 & H2).
        exists s1, s2. rewrite <- IH1. auto.
      - intros (s1 & s2 & -> & H1 & H2). constructor; [now apply IH1 | exact H2]. }
    destruct (Re.nullable r1) eqn:En.
    + rewrite matches_alt. split.
      * intros H. apply matches_Alt_inv in H. destruct H as [H1 | H2].
        -- apply Hcat in H1. destruct H1 as (s1 & s2 & -> & H1 & H2).
           change (String c (s1 ++ s2)) with (String c s1 ++ s2)%string.
           now constructor.
        -- change (String c s) with ("" ++ String c s)%string.
           constructor; [now apply nullable_matches | now apply IH2].
      * intros H. apply matches_Cat_inv in H.
        destruct H as (s1 & s2 & Heq & H1 & H2). symmetry in Heq.
        apply string_app_eq_cons in Heq.
        destruct Heq as [[-> ->] | (s1' & -> & ->)].
        -- apply Re.MAltR. now apply IH2.
        -- apply Re.MAltL. apply Hcat. exists s1', s2. auto.
    + rewrite Hcat. split.
      * intros (s1 & s2 & -> & H1 & H2).
        change (String c (s1 ++ s2)) with (String c s1 ++ s2)%string.
        now constructor.
      * intros H. apply matches_Cat_inv in H.
        destruct H as (s1 & s2 & Heq & H1 & H2). symmetry in Heq.
        apply string_app_eq_cons in Heq.
        destruct Heq as [[-> ->] | (s1' & -> & ->)].
        -- apply nullable_matches in H1. congruence.
        -- exists s1', s2. auto.
  - rewrite matches_alt. split.
    + intros H. apply matches_Alt_inv in H.
      destruct H; [apply Re.MAltL; now apply IH1 | apply Re.MAltR; now apply IH2].
    + intros H. apply matches_Alt_inv in H.
      destruct H; [apply Re.MAltL; now apply IH1 | apply Re.MAltR; now apply IH2].
  - rewrite matches_cat. split.
    + intros H. apply matches_Cat_inv in H.
      destruct H as (s1 & s2 & -> & H1 & H2).
      change (String c (s1 ++ s2)) with (String c s1 ++ s2)%string.
      apply Re.MStarS; [now apply IH | exact H2].
    + intros H. apply matches_star_cons in H.
      destruct H as (s1 & s2 & -> & H1 & H2).
      constructor; [now apply IH | exact H2].
Qed.

(** [fullmatch] decides membership in the language of the pattern. *)
Lemma fullmatch_matches (r : Re.regex) (s : string) :
  Re.fullmatch r s = true <-> Re.matches r s.
Proof.
  revert r. induction s as [| c s IH]; intros r; simpl.
  - apply nullable_matches.
  - rewrite IH. apply deriv_matches.
Qed.

(** [match_prefix] finds a prefix in the language. *)
Lemma match_prefix_matches (r : Re.regex) (s : string) :
  Re.match_prefix r s = true <->
  exists s1 s2, s = (s1 ++ s2)%string /\ Re.matches r s1.
Proof.
  revert r. induction s as [| c s IH]; intros r; simpl.
  - rewrite orb_false_r, nullable_matches. split.
    + intros H. exists "", "". auto.
    + intros (s1 & s2 & Heq & H). symmetry in Heq.
      apply string_app_eq_nil in Heq. destruct Heq as [-> _]. exact H.
  - rewrite orb_true_iff, nullable_matches, IH. split.
    + intros [H | (s1 & s2 & -> & H)].
      * exists "", (String c s). auto.
      * exists (String c s1), s2. split; [reflexivity |].
        now apply deriv_matches.
    + intros (s1 & s2 & Heq & H). symmetry in Heq.
      apply string_app_eq_cons in Heq.
      destruct Heq as [[-> _] | (s1' & -> & ->)].
      * now left.
      * right. exists s1', s2. split; [reflexivity |].
        now apply deriv_matches.
Qed.

(** [search] finds a substring in the language. *)
Lemma search_matches (r : Re.regex) (s : string) :
  Re.search r s = true <->
  exists s0 s1 s2, s = (s0 ++ s1 ++ s2)%string /\ Re.matches r s1.
Proof.
  induction s as [| c s IH]; cbn [Re.search].
  - rewrite orb_false_r, match_prefix_matches. split.
    + intros (s1 & s2 & Heq & H). exists "", s1, s2. auto.
    + intros (s0 & s1 & s2 & Heq & H). symmetry in Heq.
      apply string_app_eq_nil in Heq. destruct Heq as [-> Heq].
      exists s1, s2. auto.
  - rewrite orb_true_iff, match_prefix_matches, IH. split.
    + intros [(s1 & s2 & Heq & H) | (s0 & s1 & s2 & -> & H)].
      * exists "", s1, s2. auto.
      * exists (String c s0), s1, s2. auto.
    + intros (s0 & s1 & s2 & Heq & H).
      destruct s0 as [| c0 s0]; simpl in Heq.
      * left. exists s1, s2. auto.
      * injection Heq as <- ->. right. exists s0, s1, s2. auto.
Qed.

(** ** The pattern table *)

Lemma scan_rules_first (before after : list (Re.regex * FailedJobReason))
      (regex : Re.regex) (reason : FailedJobReason) (job_log : string) :
  forallb (fun rule => negb (Re.search (fst rule) job_log)) before = true ->
  Re.search regex job_log = true ->
  scan_rules (before ++ (regex, reason) :: after) job_log = Some reason.
Proof.
  induction before as [| [r t] before IH]; simpl; intros Hb Hm.
  - now rewrite Hm.
  - apply andb_true_iff in Hb. destruct Hb as [Hr Hb].
    apply negb_true_iff in Hr. rewrite Hr. now apply IH.
Qed.

Lemma scan_rules_none (table : list (Re.regex * FailedJobReason))
      (job_log : string) :
  forallb (fun rule => negb (Re.search (fst rule) job_log)) table = true ->
  scan_rules table job_log = None.
Proof.
  induction table as [| [r t] table IH]; simpl; intros Hb.
  - reflexivity.
  - apply andb_true_iff in Hb. destruct Hb as [Hr Hb].
    apply negb_true_iff in Hr. rewrite Hr. now apply IH.
Qed.

Lemma scan_rules_some (table : list (Re.regex * FailedJobReason))
      (job_log : string) (reason : FailedJobReason) :
  scan_rules table job_log = Some reason ->
  exists before regex after,
    table = before ++ (regex, reason) :: after /\
    forallb (fun rule => negb (Re.search (fst rule) job_log)) before = true /\
    Re.search regex job_log = true.
Proof.
  induction table as [| [r t] table IH]; simpl; intros H.
  - discriminate.
  - destruct (Re.search r job_log) eqn:E.
    + injection H as ->. exists [], r, table. simpl. auto.
    + destruct (IH H) as (before & regex & after & -> & Hb & Hm).
      exists ((r, t) :: before), regex, after. simpl. rewrite E. auto.
Qed.

(** The reasons the table of the module can give. *)
Lemma infra_failure_logs_reasons (job_log : string) (reason : FailedJobReason) :
  scan_rules infra_failure_logs job_log = Some reason ->
  reason = RUNNER \/ reason = GITLAB \/ reason = EC2_SPOT
  \/ reason = E2E_INFRA_FAILURE.
Proof.
  intros H. apply scan_rules_some in H.
  destruct H as (before & regex & after & Ht & _ & _).
  assert (Hin : In reason (map snd infra_failure_logs)).
  { rewrite Ht, map_app. apply in_or_app. right. simpl. now left. }
  simpl in Hin. intuition congruence.
Qed.

Lemma get_infra_failure_info_reasons (job_log : string) (reason : FailedJobReason) :
  get_infra_failure_info job_log = Some reason ->
  reason = RUNNER \/ reason = GITLAB \/ reason = EC2_SPOT
  \/ reason = E2E_INFRA_FAILURE.
Proof.
  unfold get_infra_failure_info. destruct (Str.is_empty job_log).
  - intros H. injection H as <-. auto.
  - apply infra_failure_logs_reasons.
Qed.

Lemma is_empty_false (s : string) : s <> "" -> Str.is_empty s = false.
Proof. destruct s; [congruence | reflexivity]. Qed.

(** ** The classifier *)

(** C4. [get_job_failure_context] applies its rules in strict order: a
    bridge gives (BRIDGE_FAILURE, FAILED_BRIDGE_JOB) whatever the log; else
    an infra-mapped platform failure reason gives (INFRA_FAILURE, the mapped
    reason) whatever the log; else an empty log gives (INFRA_FAILURE,
    GITLAB); else the first rule of the table, from the top, whose pattern
    is found in the log gives its reason as an INFRA_FAILURE, so that of two
    matching rules the earlier one wins; else the result is
    (JOB_FAILURE, FAILED_JOB_SCRIPT). *)
Theorem get_job_failure_context_strict_order
        (get_infra_failure_mapping : list (string * FailedJobReason))
        (job : JobExecution) (job_log : string) :
  let context := get_job_failure_context get_infra_failure_mapping job job_log in
  let mapped := infra_mapped_reason get_infra_failure_mapping job in
  (is_bridge job = true -> context = (BRIDGE_FAILURE, FAILED_BRIDGE_JOB))
  /\ (is_bridge job = false ->
      forall reason, mapped = Some reason -> context = (INFRA_FAILURE, reason))
  /\ (is_bridge job = false -> mapped = None -> job_log = "" ->
      context = (INFRA_FAILURE, GITLAB))
  /\ (is_bridge job = false -> mapped = None -> job_log <> "" ->
      forall before regex reason after,
        infra_failure_logs = before ++ (regex, reason) :: after ->
        forallb (fun rule => negb (Re.search (fst rule) job_log)) before = true ->
        Re.search regex job_log = true ->
        context = (INFRA_FAILURE, reason))
  /\ (is_bridge job = false -> mapped = None -> job_log <> "" ->
      forallb (fun rule => negb (Re.search (fst rule) job_log))
              infra_failure_logs = true ->
      context = (JOB_FAILURE, FAILED_JOB_SCRIPT)).
Proof.
  cbv zeta. unfold get_job_failure_context.
  repeat split.
  - intros ->. reflexivity.
  - intros -> reason ->. reflexivity.
  - intros -> -> ->. reflexivity.
  - intros -> -> Hlog before regex reason after Ht Hb Hm.
    unfold get_infra_failure_info. rewrite (is_empty_false _ Hlog), Ht.
    now rewrite (scan_rules_first before after regex reason job_log Hb Hm).
  - intros -> -> Hlog Hb.
    unfold get_infra_failure_info. rewrite (is_empty_false _ Hlog).
    now rewrite (scan_rules_none _ _ Hb).
Qed.

Lemma get_job_failure_context_strict_order_witness :
  get_job_failure_context Ex.mapping (Ex.job "new-e2e" 1 "failed" 10 false)
                          Ex.both_signatures
  = (INFRA_FAILURE, RUNNER).
Proof.
  destruct (get_job_failure_context_strict_order
              Ex.mapping (Ex.job "new-e2e" 1 "failed" 10 false)
              Ex.both_signatures) as (_ & _ & _ & H & _).
  apply (H eq_refl eq_refl) with
    (before := firstn 4 infra_failure_logs)
    (regex := fst (nth 4 infra_failure_logs (Re.Void, GITLAB)))
    (after := skipn 5 infra_failure_logs).
  - discriminate.
  - reflexivity.
  - vm_compute. reflexivity.
  - vm_compute. reflexivity.
Defined.

(** C6. With a platform-code table that maps no code to FAILED_BRIDGE_JOB
    (section 3: that reason is a fixed default, not an infra-mapped one), a
    classification has type BRIDGE_FAILURE exactly when its reason is
    FAILED_BRIDGE_JOB, and a bridge is classified
    (BRIDGE_FAILURE, FAILED_BRIDGE_JOB) for every log text. *)
Theorem bridge_failure_iff_failed_bridge_job
        (get_infra_failure_mapping : list (string * FailedJobReason))
        (Hmapping : forall code,
            from_gitlab_job_failure_reason get_infra_failure_mapping code
            <> Some FAILED_BRIDGE_JOB)
        (job : JobExecution) (job_log : string) :
  let context := get_job_failure_context get_infra_failure_mapping job job_log in
  (fst context = BRIDGE_FAILURE <-> snd context = FAILED_BRIDGE_JOB)
  /\ (is_bridge job = true -> context = (BRIDGE_FAILURE, FAILED_BRIDGE_JOB)).
Proof.
  cbv zeta. unfold get_job_failure_context.
  destruct (is_bridge job).
  - simpl. split; [tauto | reflexivity].
  - split; [| discriminate].
    destruct (infra_mapped_reason get_infra_failure_mapping job) as [r |] eqn:Em.
    + simpl. split; [discriminate |].
      intros ->. exfalso.
      unfold infra_mapped_reason in Em.
      destruct (failure_reason job) as [code |]; [| discriminate].
      exact (Hmapping code Em).
    + destruct (get_infra_failure_info job_log) as [t |] eqn:Ei; simpl.
      * split; [discriminate |].
        intros ->. apply get_infra_failure_info_reasons in Ei.
        intuition discriminate.
      * split; discriminate.
Qed.

Lemma bridge_failure_iff_failed_bridge_job_witness :
  get_job_failure_context Ex.mapping (Ex.bridge "deploy" 3 "failed" 12)
                          "E2E INTERNAL ERROR"
  = (BRIDGE_FAILURE, FAILED_BRIDGE_JOB).
Proof.
  assert (Hmapping : forall code,
             from_gitlab_job_failure_reason Ex.mapping code
             <> Some FAILED_BRIDGE_JOB).
  { intros code. unfold from_gitlab_job_failure_reason, Ex.mapping.
    cbn [lookup_code].
    repeat match goal with
           | |- context [String.eqb ?a code] => destruct (String.eqb a code)
           end; discriminate. }
  apply (bridge_failure_iff_failed_bridge_job
           Ex.mapping Hmapping (Ex.bridge "deploy" 3 "failed" 12)
           "E2E INTERNAL ERROR").
  reflexivity.
Defined.

(** ** Job names *)

(** C7. A name that matches an entry of [jobs_allowed_to_have_full_names]
    is returned unchanged; any other name is cut before its first colon and
    then to at most 48 characters.  So [kmt_run_foo_tests_bar] is kept,
    [unit_tests:windows-x64] becomes [unit_tests], and a name of 60
    characters without a colon becomes its first 48 characters. *)
Theorem truncate_job_name_spec (job_name : string) :
  let truncated := truncate_job_name job_name max_char_per_job_default in
  let kept := Re.any_fullmatch jobs_allowed_to_have_full_names job_name in
  (kept = true -> truncated = job_name)
  /\ (kept = false ->
      truncated = Str.take 48 (Str.before_colon job_name)
      /\ String.length truncated <= 48)
  /\ truncate_job_name "kmt_run_foo_tests_bar" max_char_per_job_default
     = "kmt_run_foo_tests_bar"
  /\ truncate_job_name "unit_tests:windows-x64" max_char_per_job_default
     = "unit_tests"
  /\ (kept = false -> String.length job_name = 60 ->
      Str.has_colon job_name = false ->
      truncated = Str.take 48 job_name /\ String.length truncated = 48).
Proof.
  cbv zeta. unfold max_char_per_job_default.
  split; [| split; [| split; [| split]]].
  - unfold truncate_job_name. intros ->. reflexivity.
  - unfold truncate_job_name. intros ->. split; [reflexivity |].
    rewrite string_length_take. lia.
  - reflexivity.
  - reflexivity.
  - unfold truncate_job_name. intros -> Hl Hc.
    rewrite before_colon_no_colon by exact Hc.
    split; [reflexivity |].
    rewrite string_length_take, Hl. reflexivity.
Qed.

Lemma truncate_job_name_spec_witness :
  truncate_job_name Ex.sixty max_char_per_job_default
  = "aaaaaaaaaabbbbbbbbbbccccccccccddddddddddeeeeeeee"
  /\ String.length (truncate_job_name Ex.sixty max_char_per_job_default) = 48.
Proof.
  destruct (truncate_job_name_spec Ex.sixty) as (_ & _ & _ & _ & H).
  destruct H as [H1 H2]; [reflexivity | reflexivity | reflexivity |].
  split.
  - rewrite H1. reflexivity.
  - exact H2.
Defined.

(** ** Grouping by name *)

Lemma dict_get_append (d : Dict.t) (k k' : string) (job : JobExecution) :
  Dict.get (Dict.append d k job) k'
  = if String.eqb k k' then Dict.get d k' ++ [job] else Dict.get d k'.
Proof.
  induction d as [| [k0 jobs] d IH]; simpl.
  - destruct (String.eqb k k'); reflexivity.
  - destruct (String.eqb k0 k) eqn:E0; simpl.
    + apply String.eqb_eq in E0. subst k0.
      destruct (String.eqb k k'); reflexivity.
    + rewrite IH.
      destruct (String.eqb k0 k') eqn:E1; [| reflexivity].
      apply String.eqb_eq in E1. subst k0. now rewrite String.eqb_sym, E0.
Qed.

Lemma dict_keys_append (d : Dict.t) (k : string) (job : JobExecution) (x : string) :
  In x (Dict.keys (Dict.append d k job)) <-> x = k \/ In x (Dict.keys d).
Proof.
  unfold Dict.keys.
  induction d as [| [k0 jobs] d IH]; simpl.
  - intuition.
  - destruct (String.eqb k0 k) eqn:E0; simpl.
    + apply String.eqb_eq in E0. subst k0. intuition.
    + rewrite IH. intuition.
Qed.

Lemma dict_wf_append (d : Dict.t) (k : string) (job : JobExecution) :
  dict_wf d -> dict_wf (Dict.append d k job).
Proof.
  unfold dict_wf, Dict.keys.
  induction d as [| [k0 jobs] d IH]; simpl; intros [Hnd Hne].
  - split.
    + constructor; [intros [] | constructor].
    + intros k' jobs' [H | []]. injection H as <- <-. discriminate.
  - inversion Hnd as [| ? ? Hnotin Hnd']; subst.
    destruct (String.eqb k0 k) eqn:E0; simpl.
    + split.
      * constructor; assumption.
      * intros k' jobs' [H | H].
        -- injection H as <- <-. now destruct jobs.
        -- eapply Hne. right. exact H.
    + destruct IH as [IH1 IH2].
      { split; [exact Hnd' |]. intros k' jobs' H. eapply Hne. right. exact H. }
      split.
      * constructor; [| exact IH1].
        intros Hin. apply (dict_keys_append d k job k0) in Hin.
        destruct Hin as [-> | Hin]; [| contradiction].
        now rewrite String.eqb_refl in E0.
      * intros k' jobs' [H | H].
        -- injection H as <- <-. eapply Hne. left. reflexivity.
        -- eapply IH2. exact H.
Qed.

Lemma dict_get_in (d : Dict.t) (k : string) (jobs : list JobExecution) :
  dict_wf d -> In (k, jobs) d -> Dict.get d k = jobs.
Proof.
  unfold dict_wf, Dict.keys.
  induction d as [| [k0 jobs0] d IH]; simpl; intros [Hnd Hne] Hin.
  - contradiction.
  - inversion Hnd as [| ? ? Hnotin Hnd']; subst.
    destruct Hin as [H | H].
    + injection H as -> ->. now rewrite String.eqb_refl.
    + destruct (String.eqb k0 k) eqn:E0.
      * apply String.eqb_eq in E0. subst k0. exfalso. apply Hnotin.
        change k with (fst (k, jobs)). now apply in_map.
      * apply IH; [| exact H].
        split; [exact Hnd' |]. intros k' jobs' H'. eapply Hne. right. exact H'.
Qed.

Lemma dict_in_get (d : Dict.t) (k : string) :
  Dict.get d k <> [] -> In (k, Dict.get d k) d.
Proof.
  induction d as [| [k0 jobs0] d IH]; simpl; intros H.
  - congruence.
  - destruct (String.eqb k0 k) eqn:E0.
    + apply String.eqb_eq in E0. subst k0. now left.
    + right. now apply IH.
Qed.

Lemma fold_group_step_wf (jobs : list JobExecution) (d : Dict.t) :
  dict_wf d -> dict_wf (fold_left group_step jobs d).
Proof.
  revert d. induction jobs as [| job jobs IH]; simpl; intros d Hd.
  - exact Hd.
  - apply IH. unfold group_step.
    destruct (is_failed job); [now apply dict_wf_append | exact Hd].
Qed.

Lemma fold_group_step_get (jobs : list JobExecution) (d : Dict.t) (n : string) :
  Dict.get (fold_left group_step jobs d) n
  = Dict.get d n ++ failed_attempts jobs n.
Proof.
  revert d. induction jobs as [| job jobs IH]; simpl; intros d.
  - now rewrite app_nil_r.
  - rewrite IH. unfold group_step.
    destruct (is_failed job); simpl.
    + rewrite dict_get_append.
      destruct (String.eqb (name job) n); simpl.
      * now rewrite <- app_assoc.
      * reflexivity.
    + reflexivity.
Qed.

Lemma group_failed_wf (jobs : list JobExecution) : dict_wf (group_failed jobs).
Proof.
  apply fold_group_step_wf. split; [constructor | intros k g []].
Qed.

(** The dictionary of the first loop: under each name that has a failed
    execution, the failed executions bearing it, in input order. *)
Lemma group_failed_spec (jobs : list JobExecution) (n : string)
      (group : list JobExecution) :
  In (n, group) (group_failed jobs)
  <-> group = failed_attempts jobs n /\ group <> [].
Proof.
  pose proof (group_failed_wf jobs) as Hwf.
  pose proof (fold_group_step_get jobs [] n) as Hget. simpl in Hget.
  fold (group_failed jobs) in Hget.
  split.
  - intros Hin. split.
    + rewrite <- Hget. symmetry. now apply dict_get_in.
    + destruct Hwf as [_ Hne]. now apply (Hne n).
  - intros [-> Hne]. rewrite <- Hget in *. now apply dict_in_get.
Qed.

Lemma failed_attempts_failed (jobs : list JobExecution) (n : string)
      (job : JobExecution) :
  In job (failed_attempts jobs n) ->
  In job jobs /\ status job = "failed" /\ name job = n.
Proof.
  unfold failed_attempts. rewrite filter_In, andb_true_iff.
  unfold is_failed. rewrite !String.eqb_eq. tauto.
Qed.

Lemma failed_attempts_all_failed (jobs : list JobExecution) (n : string) :
  (forall job, In job (attempts jobs n) -> is_failed job = true) ->
  failed_attempts jobs n = attempts jobs n.
Proof.
  unfold failed_attempts, attempts.
  induction jobs as [| job jobs IH]; simpl; intros H.
  - reflexivity.
  - destruct (String.eqb (name job) n) eqn:E.
    + rewrite (H job (or_introl eq_refl)). simpl.
      f_equal. apply IH. intros j Hj. apply H. now right.
    + rewrite andb_false_r. apply IH. exact H.
Qed.

(** ** Sorting by creation date *)

Lemma insert_by_created_at_perm (job : JobExecution) (l : list JobExecution) :
  Permutation (insert_by_created_at job l) (job :: l).
Proof.
  induction l as [| j l IH]; simpl.
  - apply Permutation_refl.
  - destruct (Z.leb (created_at job) (created_at j)).
    + apply Permutation_refl.
    + eapply perm_trans; [apply perm_skip, IH | apply perm_swap].
Qed.

Lemma sort_by_created_at_perm (l : list JobExecution) :
  Permutation (sort_by_created_at l) l.
Proof.
  induction l as [| j l IH]; simpl.
  - apply perm_nil.
  - eapply perm_trans; [apply insert_by_created_at_perm |].
    now apply perm_skip.
Qed.

Lemma insert_by_created_at_sorted (job : JobExecution) (l : list JobExecution) :
  StronglySorted earlier_or_same l ->
  StronglySorted earlier_or_same (insert_by_created_at job l).
Proof.
  induction l as [| j l IH]; simpl; intros Hs.
  - constructor; constructor.
  - inversion Hs as [| ? ? Hs' Hall]; subst.
    destruct (Z.leb (created_at job) (created_at j)) eqn:E.
    + apply Z.leb_le in E. constructor; [exact Hs |].
      constructor; [exact E |].
      eapply Forall_impl; [| exact Hall].
      unfold earlier_or_same. intros a Ha. lia.
    + apply Z.leb_gt in E. constructor; [now apply IH |].
      eapply Permutation_Forall.
      * apply Permutation_sym, insert_by_created_at_perm.
      * constructor; [unfold earlier_or_same; lia | exact Hall].
Qed.

Lemma sort_by_created_at_sorted (l : list JobExecution) :
  StronglySorted earlier_or_same (sort_by_created_at l).
Proof.
  induction l as [| j l IH]; simpl.
  - constructor.
  - now apply insert_by_created_at_sorted.
Qed.

Lemma last_job_nonempty (l : list JobExecution) :
  l <> [] -> exists job, last_job l = Ok job.
Proof.
  induction l as [| j l IH]; intros H.
  - congruence.
  - destruct l as [| j' l].
    + exists j. reflexivity.
    + destruct IH as [job Hjob]; [discriminate |].
      exists job. exact Hjob.
Qed.

Lemma last_job_in (l : list JobExecution) (job : JobExecution) :
  last_job l = Ok job -> In job l.
Proof.
  induction l as [| j l IH]; intros H.
  - discriminate.
  - destruct l as [| j' l].
    + injection H as ->. now left.
    + right. now apply IH.
Qed.

Lemma last_job_sorted_latest (l : list JobExecution) (job : JobExecution) :
  StronglySorted earlier_or_same l -> last_job l = Ok job ->
  forall j, In j l -> (created_at j <= created_at job)%Z.
Proof.
  induction l as [| a l IH]; intros Hs Hl j Hj.
  - contradiction.
  - inversion Hs as [| ? ? Hs' Hall]; subst.
    destruct l as [| b l].
    + injection Hl as ->. destruct Hj as [-> | []]. lia.
    + assert (Hjob : In job (b :: l)) by now apply last_job_in.
      destruct Hj as [-> | Hj].
      * rewrite Forall_forall in Hall. now apply Hall.
      * now apply IH.
Qed.

Lemma sort_by_created_at_nonempty (l : list JobExecution) :
  l <> [] -> sort_by_created_at l <> [].
Proof.
  intros H E. apply H.
  apply Permutation_nil. rewrite <- E.
  apply sort_by_created_at_perm.
Qed.

(** The canonical attempt of a non-empty group: it exists, it is one of the
    group, and none of the group was created later. *)
Lemma canonical_attempt (group : list JobExecution) :
  group <> [] ->
  exists job, last_job (sort_by_created_at group) = Ok job
              /\ In job group
              /\ forall j, In j group -> (created_at j <= created_at job)%Z.
Proof.
  intros Hne.
  destruct (last_job_nonempty _ (sort_by_created_at_nonempty _ Hne))
    as [job Hjob].
  exists job. split; [exact Hjob |]. split.
  - eapply Permutation_in; [apply sort_by_created_at_perm |].
    now apply last_job_in.
  - intros j Hj.
    apply (last_job_sorted_latest _ _ (sort_by_created_at_sorted group) Hjob).
    eapply Permutation_in; [apply Permutation_sym, sort_by_created_at_perm |].
    exact Hj.
Qed.

(** ** The report of [get_failed_jobs] *)

Section ConsolidatorFacts.

Variable mapping : list (string * FailedJobReason).
Variable trace : Z -> result string.

Lemma final_status_of_fields (n : string) (jobs : list JobExecution)
      (job : JobExecution) (log : string) :
  let entry := final_status_of mapping n jobs job log in
  fj_name entry = truncate_job_name n max_char_per_job_default
  /\ fj_full_name entry = n
  /\ fj_id entry = id job
  /\ fj_status entry = status job
  /\ fj_allow_failure entry = allow_failure job
  /\ fj_retry_summary entry = map status jobs
  /\ (fj_failure_type entry, fj_failure_reason entry)
     = get_job_failure_context mapping job log.
Proof.
  unfold final_status_of.
  destruct (get_job_failure_context mapping job log) as [t r]. simpl.
  repeat split; reflexivity.
Qed.

Lemma entry_of_functional (n : string) (group : list JobExecution)
      (e1 e2 : FinalJobStatus) :
  entry_of mapping trace n group e1 -> entry_of mapping trace n group e2 ->
  e1 = e2.
Proof.
  intros (c1 & l1 & Hc1 & Hl1 & ->) (c2 & l2 & Hc2 & Hl2 & ->).
  rewrite Hc1 in Hc2. injection Hc2 as <-.
  rewrite Hl1 in Hl2. injection Hl2 as <-. reflexivity.
Qed.

Lemma add_failed_job_mandatory (acc : FailedJobs) (entry : FinalJobStatus) :
  should_report_job (fj_name entry) (fj_allow_failure entry) = true ->
  mandatory_failures (add_failed_job acc entry)
  = mandatory_failures acc ++ [entry]
  /\ excluded_failures (add_failed_job acc entry) = excluded_failures acc.
Proof.
  intros H. unfold add_failed_job. rewrite H. simpl. auto.
Qed.

Lemma process_group_Ok (acc r : FailedJobs) (n : string)
      (group : list JobExecution) :
  process_group mapping trace acc n group = Ok r ->
  exists entry,
    entry_of mapping trace n group entry
    /\ r = if String.eqb (fj_status entry) "failed"
              && should_report_job (fj_name entry) (fj_allow_failure entry)
           then add_failed_job acc entry else acc.
Proof.
  unfold process_group. intros H.
  apply bind_Ok_inv in H. destruct H as (job & Hjob & H).
  apply bind_Ok_inv in H. destruct H as (log & Hlog & H).
  exists (final_status_of mapping n (sort_by_created_at group) job log).
  split.
  - exists job, log. auto.
  - destruct (final_status_of_fields n (sort_by_created_at group) job log)
      as (Hn & _). cbv zeta in Hn. rewrite Hn.
    destruct (_ && _); injection H as <-; reflexivity.
Qed.

Lemma process_group_entry (acc : FailedJobs) (n : string)
      (group : list JobExecution) (entry : FinalJobStatus) :
  entry_of mapping trace n group entry ->
  exists r, process_group mapping trace acc n group = Ok r.
Proof.
  intros (job & log & Hjob & Hlog & ->).
  unfold process_group. rewrite Hjob. simpl.
  unfold job_log in Hlog. rewrite Hlog. simpl.
  destruct (_ && _); eauto.
Qed.

Lemma process_group_Raise (acc : FailedJobs) (n : string)
      (group : list JobExecution) (job : JobExecution) (e : exn) :
  last_job (sort_by_created_at group) = Ok job ->
  job_log trace job = Raise e ->
  process_group mapping trace acc n group = Raise e.
Proof.
  intros Hjob Hlog. unfold process_group. rewrite Hjob. simpl.
  unfold job_log in Hlog. rewrite Hlog. reflexivity.
Qed.

Lemma process_groups_Ok (groups : Dict.t) (acc r : FailedJobs) :
  process_groups mapping trace groups acc = Ok r ->
  excluded_failures r = excluded_failures acc
  /\ (forall n group, In (n, group) groups ->
                      exists entry, entry_of mapping trace n group entry)
  /\ (forall entry,
         In entry (mandatory_failures r) <->
         In entry (mandatory_failures acc)
         \/ exists n group,
             In (n, group) groups
             /\ entry_of mapping trace n group entry
             /\ fj_status entry = "failed"
             /\ should_report_job (fj_name entry) (fj_allow_failure entry)
                = true).
Proof.
  revert acc. induction groups as [| [n0 g0] groups IH]; simpl; intros acc H.
  - injection H as <-. split; [reflexivity |]. split.
    + intros n group [].
    + intros entry. split; [auto |].
      intros [Hin | (n & group & [] & _)]. exact Hin.
  - apply bind_Ok_inv in H. destruct H as (r1 & H1 & H).
    apply process_group_Ok in H1. destruct H1 as (e0 & He0 & Hr1).
    destruct (IH _ H) as (IHx & IHe & IHm). clear IH.
    assert (Hstep :
              excluded_failures r1 = excluded_failures acc
              /\ forall entry,
                  In entry (mandatory_failures r1) <->
                  In entry (mandatory_failures acc)
                  \/ (entry = e0 /\ fj_status entry = "failed"
                      /\ should_report_job (fj_name entry)
                                           (fj_allow_failure entry) = true)).
    { rewrite Hr1.
      destruct (String.eqb (fj_status e0) "failed") eqn:Es;
        destruct (should_report_job (fj_name e0) (fj_allow_failure e0)) eqn:Er;
        simpl.
      - destruct (add_failed_job_mandatory acc e0 Er) as [Hm Hx].
        split; [exact Hx |]. intros entry. rewrite Hm, in_app_iff. simpl.
        apply String.eqb_eq in Es.
        split.
        + intros [Hin | [<- | []]]; [now left | right; auto].
        + intros [Hin | (-> & _)]; [now left | right; now left].
      - split; [reflexivity |]. intros entry. split; [auto |].
        intros [Hin | (-> & _ & Hr)]; [exact Hin | congruence].
      - split; [reflexivity |]. intros entry. split; [auto |].
        intros [Hin | (-> & Hs & _)]; [exact Hin |].
        apply String.eqb_eq in Hs. congruence.
      - split; [reflexivity |]. intros entry. split; [auto |].
        intros [Hin | (-> & _ & Hr)]; [exact Hin | congruence]. }
    destruct Hstep as [Hx1 Hm1].
    split; [congruence |]. split.
    + intros n group [Heq | Hin].
      * injection Heq as <- <-. exists e0. exact He0.
      * eapply IHe. exact Hin.
    + intros entry. rewrite IHm, Hm1. split.
      * intros [[Hin | (-> & Hs & Hr)] | (n & group & Hin & He & Hs & Hr)].
        -- now left.
        -- right. exists n0, g0. auto.
        -- right. exists n, group. auto.
      * intros [Hin | (n & group & [Heq | Hin] & He & Hs & Hr)].
        -- left. now left.
        -- injection Heq as <- <-. left. right.
           split; [| auto]. eapply entry_of_functional; eassumption.
        -- right. exists n, group. auto.
Qed.

Lemma process_groups_total (groups : Dict.t) (acc : FailedJobs) :
  (forall n group, In (n, group) groups ->
                   exists entry, entry_of mapping trace n group entry) ->
  exists r, process_groups mapping trace groups acc = Ok r.
Proof.
  revert acc. induction groups as [| [n0 g0] groups IH]; simpl; intros acc H.
  - eauto.
  - destruct (H n0 g0 (or_introl eq_refl)) as [e0 He0].
    destruct (process_group_entry acc _ _ _ He0) as [r1 Hr1].
    rewrite Hr1. simpl. apply IH. intros n group Hin. apply (H n group).
    now right.
Qed.

Lemma process_groups_Raise (groups : Dict.t) (acc : FailedJobs) (n : string)
      (group : list JobExecution) (job : JobExecution) (e : exn) :
  In (n, group) groups ->
  last_job (sort_by_created_at group) = Ok job ->
  job_log trace job = Raise e ->
  exists e', process_groups mapping trace groups acc = Raise e'.
Proof.
  revert acc. induction groups as [| [n0 g0] groups IH]; simpl;
    intros acc Hin Hjob Hlog.
  - contradiction.
  - destruct (process_group mapping trace acc n0 g0) as [r1 | e1] eqn:E1; simpl.
    + destruct Hin as [Heq | Hin].
      * injection Heq as -> ->.
        rewrite (process_group_Raise acc n group job e Hjob Hlog) in E1. discriminate.
      * now apply IH.
    + eauto.
Qed.

(** The entries of a report: one for each name that has a failed
    execution and passes [should_report_job], all of them mandatory. *)
Lemma get_failed_jobs_entries (pipeline : ProjectPipeline)
      (jobs bridges : list JobExecution) (report : FailedJobs) :
  jobs_list pipeline = Ok jobs ->
  bridges_list pipeline = Ok bridges ->
  get_failed_jobs mapping trace pipeline = Ok report ->
  excluded_failures report = []
  /\ (forall n, failed_attempts (jobs ++ bridges) n <> [] ->
                exists entry,
                  entry_of mapping trace n
                           (failed_attempts (jobs ++ bridges) n) entry)
  /\ (forall entry,
         In entry (mandatory_failures report) <->
         exists n,
           failed_attempts (jobs ++ bridges) n <> []
           /\ entry_of mapping trace n
                       (failed_attempts (jobs ++ bridges) n) entry
           /\ should_report_job (fj_name entry) (fj_allow_failure entry)
              = true).
Proof.
  intros Hj Hb H. unfold get_failed_jobs in H. rewrite Hj, Hb in H.
  simpl in H. apply process_groups_Ok in H. destruct H as (Hx & He & Hm).
  split; [exact Hx |]. split.
  - intros n Hne. apply (He n). apply group_failed_spec. auto.
  - intros entry. rewrite Hm. simpl. split.
    + intros [[] | (n & group & Hin & Hentry & _ & Hr)].
      apply group_failed_spec in Hin. destruct Hin as [-> Hne].
      exists n. auto.
    + intros (n & Hne & Hentry & Hr). right.
      exists n, (failed_attempts (jobs ++ bridges) n).
      split; [apply group_failed_spec; auto |].
      split; [exact Hentry |]. split; [| exact Hr].
      destruct Hentry as (job & log & Hjob & _ & ->).
      destruct (final_status_of_fields
                  n (sort_by_created_at (failed_attempts (jobs ++ bridges) n))
                  job log) as (_ & _ & _ & Hs & _).
      cbv zeta in Hs. rewrite Hs.
      apply last_job_in in Hjob.
      apply (Permutation_in _ (sort_by_created_at_perm _)) in Hjob.
      now apply failed_attempts_failed in Hjob.
Qed.

End ConsolidatorFacts.

Lemma entry_of_fields (mapping : list (string * FailedJobReason))
      (trace : Z -> result string) (n : string) (group : list JobExecution)
      (entry : FinalJobStatus) (canonical : JobExecution) :
  entry_of mapping trace n group entry ->
  last_job (sort_by_created_at group) = Ok canonical ->
  fj_name entry = truncate_job_name n max_char_per_job_default
  /\ fj_full_name entry = n
  /\ fj_id entry = id canonical
  /\ fj_status entry = status canonical
  /\ fj_allow_failure entry = allow_failure canonical
  /\ fj_retry_summary entry = map status (sort_by_created_at group).
Proof.
  intros (job & log & Hjob & _ & ->) Hc.
  rewrite Hjob in Hc. injection Hc as ->.
  destruct (final_status_of_fields mapping n (sort_by_created_at group)
                                   canonical log)
    as (H1 & H2 & H3 & H4 & H5 & H6 & _).
  cbv zeta in *. auto 7.
Qed.

Lemma entry_of_full_name (mapping : list (string * FailedJobReason))
      (trace : Z -> result string) (n : string) (group : list JobExecution)
      (entry : FinalJobStatus) :
  entry_of mapping trace n group entry ->
  fj_full_name entry = n
  /\ fj_name entry = truncate_job_name n max_char_per_job_default.
Proof.
  intros H. pose proof H as (job & log & Hjob & _ & _).
  destruct (entry_of_fields _ _ _ _ _ _ H Hjob) as (H1 & H2 & _). auto.
Qed.

(** C1, amended.  A job name none of whose executions failed is not
    reported.  For a job name all of whose executions failed,
    [get_failed_jobs] groups every execution bearing the name, the canonical
    execution is the last of the group sorted by [created_at], so none of
    the group was created later, and the name is reported exactly when
    [should_report_job] accepts its display name and the canonical
    execution's [allow_failure]; the entry reported carries the canonical
    execution's id and status and one retry status per execution.  (Names
    that have both failed and other executions are left aside.) *)
Theorem get_failed_jobs_canonical_attempt
        (mapping : list (string * FailedJobReason)) (trace : Z -> result string)
        (pipeline : ProjectPipeline) (jobs bridges : list JobExecution)
        (report : FailedJobs) (n : string) :
  jobs_list pipeline = Ok jobs ->
  bridges_list pipeline = Ok bridges ->
  get_failed_jobs mapping trace pipeline = Ok report ->
  let group := attempts (jobs ++ bridges) n in
  (failed_attempts (jobs ++ bridges) n = [] -> ~ reported report n)
  /\ (group <> [] ->
      (forall job, In job group -> is_failed job = true) ->
      exists canonical,
        last_job (sort_by_created_at group) = Ok canonical
        /\ In canonical group
        /\ (forall job, In job group ->
                        (created_at job <= created_at canonical)%Z)
        /\ (reported report n <->
            should_report_job (truncate_job_name n max_char_per_job_default)
                              (allow_failure canonical) = true)
        /\ (forall entry,
               In entry (all_failures report) -> fj_full_name entry = n ->
               fj_id entry = id canonical
               /\ fj_status entry = "failed"
               /\ fj_retry_summary entry
                  = map status (sort_by_created_at group))).
Proof.
  intros Hj Hb Hr. cbv zeta.
  destruct (get_failed_jobs_entries mapping trace pipeline jobs bridges report
                                    Hj Hb Hr) as (Hx & He & Hm).
  assert (Hall : forall entry,
             In entry (all_failures report) ->
             exists n', failed_attempts (jobs ++ bridges) n' <> []
                        /\ entry_of mapping trace n'
                                    (failed_attempts (jobs ++ bridges) n') entry
                        /\ should_report_job (fj_name entry)
                                             (fj_allow_failure entry) = true).
  { intros entry Hin. unfold all_failures in Hin.
    rewrite Hx, app_nil_r in Hin. now apply Hm. }
  split.
  - intros Hnone (entry & Hin & Hn).
    destruct (Hall entry Hin) as (n' & Hne & Hentry & _).
    destruct (entry_of_full_name _ _ _ _ _ Hentry) as [Hfull _].
    apply Hne. congruence.
  - intros Hne Hfailed.
    pose proof (failed_attempts_all_failed (jobs ++ bridges) n Hfailed) as Hfa.
    destruct (canonical_attempt _ Hne) as (canonical & Hc & Hcin & Hlatest).
    exists canonical. split; [exact Hc |]. split; [exact Hcin |].
    split; [exact Hlatest |].
    assert (Hentries : forall entry,
               In entry (all_failures report) -> fj_full_name entry = n ->
               entry_of mapping trace n (attempts (jobs ++ bridges) n) entry
               /\ should_report_job (fj_name entry) (fj_allow_failure entry)
                  = true).
    { intros entry Hin Hn.
      destruct (Hall entry Hin) as (n' & _ & Hentry & Hrep).
      destruct (entry_of_full_name _ _ _ _ _ Hentry) as [Hfull _].
      assert (Heq : n' = n) by congruence.
      rewrite Heq, Hfa in Hentry. auto. }
    split.
    + split.
      * intros (entry & Hin & Hn).
        destruct (Hentries entry Hin Hn) as [Hentry Hrep].
        destruct (entry_of_fields _ _ _ _ _ _ Hentry Hc) as (H1 & _ & _ & _ & H5 & _).
        now rewrite H1, H5 in Hrep.
      * intros Hrep.
        destruct (He n) as [entry Hentry]; [now rewrite Hfa |].
        rewrite Hfa in Hentry.
        destruct (entry_of_fields _ _ _ _ _ _ Hentry Hc) as (H1 & H2 & _ & _ & H5 & _).
        exists entry. split; [| exact H2].
        unfold all_failures. apply in_or_app. left. apply Hm.
        exists n. rewrite Hfa, H1, H5. auto.
    + intros entry Hin Hn.
      destruct (Hentries entry Hin Hn) as [Hentry _].
      destruct (entry_of_fields _ _ _ _ _ _ Hentry Hc) as (_ & _ & H3 & H4 & _ & H6).
      split; [exact H3 |]. split; [| exact H6].
      rewrite H4. specialize (Hfailed canonical Hcin).
      now apply String.eqb_eq in Hfailed.
Qed.

Lemma get_failed_jobs_canonical_attempt_witness :
  exists report canonical,
    get_failed_jobs Ex.mapping Ex.trace_ok Ex.thrice = Ok report
    /\ id canonical = 7%Z
    /\ (reported report "e2e" <->
        should_report_job (truncate_job_name "e2e" max_char_per_job_default)
                          (allow_failure canonical) = true).
Proof.
  destruct (get_failed_jobs Ex.mapping Ex.trace_ok Ex.thrice) as [report |] eqn:E;
    [| discriminate E].
  destruct (get_failed_jobs_canonical_attempt
              Ex.mapping Ex.trace_ok Ex.thrice
              [ Ex.job "e2e" 7 "failed" 30 false;
                Ex.job "e2e" 5 "failed" 10 false;
                Ex.job "e2e" 6 "failed" 20 false ] [] report "e2e"
              eq_refl eq_refl E) as [_ H].
  destruct H as (canonical & Hc & _ & _ & Hiff & _).
  - discriminate.
  - intros job [<- | [<- | [<- | []]]]; reflexivity.
  - exists report, canonical. split; [reflexivity |]. split; [| exact Hiff].
    vm_compute in Hc. injection Hc as <-. reflexivity.
Defined.

(** C1, as stated, fails on a job that is allowed to fail: the only
    execution of [lint] failed, so the canonical execution's status is
    [failed], and the report has no entry for it. *)
Lemma allowed_failure_not_reported :
  exists canonical,
    last_job (sort_by_created_at
                (attempts [Ex.job "lint" 1 "failed" 10 true] "lint"))
    = Ok canonical
    /\ status canonical = "failed"
    /\ get_failed_jobs Ex.mapping Ex.trace_ok Ex.allowed = Ok empty_FailedJobs
    /\ ~ reported empty_FailedJobs "lint".
Proof.
  exists (Ex.job "lint" 1 "failed" 10 true).
  split; [reflexivity |]. split; [reflexivity |]. split; [reflexivity |].
  intros (entry & [] & _).
Qed.

(** What the code does with a job that was retried: only the failed
    attempts are grouped, so the job is reported although its latest
    attempt succeeded. *)
Lemma retried_success_is_reported :
  exists report entry,
    get_failed_jobs Ex.mapping Ex.trace_ok Ex.retried = Ok report
    /\ all_failures report = [entry]
    /\ fj_full_name entry = "unit_tests"
    /\ fj_id entry = 1%Z
    /\ fj_retry_summary entry = ["failed"].
Proof.
  eexists. eexists. split; [vm_compute; reflexivity |].
  repeat split; reflexivity.
Qed.

(** X16. The retry summary of an entry lists the statuses of the failed
    executions bearing its name, and only those, sorted by creation date:
    it has one status per failed execution of that name. *)
Lemma retry_summary_of_failed_attempts
      (mapping : list (string * FailedJobReason)) (trace : Z -> result string)
      (pipeline : ProjectPipeline) (jobs bridges : list JobExecution)
      (report : FailedJobs) (entry : FinalJobStatus) :
  jobs_list pipeline = Ok jobs ->
  bridges_list pipeline = Ok bridges ->
  get_failed_jobs mapping trace pipeline = Ok report ->
  In entry (all_failures report) ->
  let group := failed_attempts (jobs ++ bridges) (fj_full_name entry) in
  fj_retry_summary entry = map status (sort_by_created_at group)
  /\ StronglySorted earlier_or_same (sort_by_created_at group)
  /\ Permutation (sort_by_created_at group) group
  /\ length (fj_retry_summary entry) = length group.
Proof.
  intros Hj Hb Hr Hin. cbv zeta.
  destruct (get_failed_jobs_entries mapping trace pipeline jobs bridges report
                                    Hj Hb Hr) as (Hx & _ & Hm).
  unfold all_failures in Hin. rewrite Hx, app_nil_r in Hin.
  apply Hm in Hin. destruct Hin as (n & _ & Hentry & _).
  destruct (entry_of_full_name _ _ _ _ _ Hentry) as [Hfull _].
  rewrite Hfull.
  pose proof Hentry as (job & log & Hjob & _ & _).
  destruct (entry_of_fields _ _ _ _ _ _ Hentry Hjob) as (_ & _ & _ & _ & _ & H6).
  split; [exact H6 |].
  split; [apply sort_by_created_at_sorted |].
  split; [apply sort_by_created_at_perm |].
  rewrite H6, length_map.
  apply Permutation_length, sort_by_created_at_perm.
Qed.

(** ** Independence of the input order *)

Lemma failed_attempts_perm (jobs1 jobs2 : list JobExecution) (n : string) :
  Permutation jobs1 jobs2 ->
  Permutation (failed_attempts jobs1 n) (failed_attempts jobs2 n).
Proof.
  unfold failed_attempts.
  induction 1 as [| x l l' _ IH | x y l | l l' l'' _ IH1 _ IH2]; simpl.
  - apply perm_nil.
  - destruct (is_failed x && String.eqb (name x) n);
      [now apply perm_skip | exact IH].
  - destruct (is_failed x && String.eqb (name x) n);
      destruct (is_failed y && String.eqb (name y) n);
      try apply Permutation_refl.
    apply perm_swap.
  - eapply perm_trans; eassumption.
Qed.

(** Two sorted arrangements of the same executions are equal when no two
    of them have the same creation date. *)
Lemma sorted_by_created_at_unique (l1 l2 : list JobExecution) :
  StronglySorted earlier_or_same l1 ->
  StronglySorted earlier_or_same l2 ->
  Permutation l1 l2 ->
  NoDup (map created_at l1) ->
  l1 = l2.
Proof.
  revert l2. induction l1 as [| a l1 IH]; intros l2 Hs1 Hs2 Hp Hnd.
  - apply Permutation_nil in Hp. now subst.
  - destruct l2 as [| b l2].
    + apply Permutation_sym, Permutation_nil in Hp. discriminate.
    + inversion Hs1 as [| ? ? Hs1' Hall1]; subst.
      inversion Hs2 as [| ? ? Hs2' Hall2]; subst.
      inversion Hnd as [| ? ? Hnotin Hnd']; subst.
      assert (Hab : a = b).
      { assert (Ha : In a (b :: l2))
          by (eapply Permutation_in; [exact Hp | now left]).
        assert (Hb : In b (a :: l1))
          by (eapply Permutation_in;
              [apply Permutation_sym; exact Hp | now left]).
        destruct Ha as [Ha | Ha]; [now symmetry |].
        destruct Hb as [Hb | Hb]; [exact Hb |].
        exfalso. apply Hnotin.
        rewrite Forall_forall in Hall1, Hall2.
        specialize (Hall1 b Hb). specialize (Hall2 a Ha).
        unfold earlier_or_same in Hall1, Hall2.
        replace (created_at a) with (created_at b) by lia.
        now apply in_map. }
      subst b. f_equal. apply IH; try assumption.
      eapply Permutation_cons_inv. exact Hp.
Qed.

(** The job object built for a name does not depend on the order of the
    input, as long as the failed executions bearing the name have different
    creation dates. *)
Lemma entry_of_perm (mapping : list (string * FailedJobReason))
      (trace : Z -> result string) (jobs1 jobs2 : list JobExecution)
      (n : string) (entry : FinalJobStatus) :
  Permutation jobs1 jobs2 ->
  NoDup (map created_at (failed_attempts jobs1 n)) ->
  entry_of mapping trace n (failed_attempts jobs1 n) entry ->
  entry_of mapping trace n (failed_attempts jobs2 n) entry.
Proof.
  intros Hp Hnd H.
  assert (Heq : sort_by_created_at (failed_attempts jobs1 n)
                = sort_by_created_at (failed_attempts jobs2 n)).
  { apply sorted_by_created_at_unique.
    - apply sort_by_created_at_sorted.
    - apply sort_by_created_at_sorted.
    - eapply perm_trans; [apply sort_by_created_at_perm |].
      eapply perm_trans; [apply failed_attempts_perm; exact Hp |].
      apply Permutation_sym, sort_by_created_at_perm.
    - eapply Permutation_NoDup; [| exact Hnd].
      apply Permutation_map, Permutation_sym, sort_by_created_at_perm. }
  unfold entry_of in *. now rewrite <- Heq.
Qed.

(** X17. The reports of two pipelines that list the same executions in
    different orders have the same entries, when the failed executions of
    each name have different creation dates. *)
Lemma get_failed_jobs_order_independent
      (mapping : list (string * FailedJobReason)) (trace : Z -> result string)
      (pipeline1 pipeline2 : ProjectPipeline)
      (jobs1 bridges1 jobs2 bridges2 : list JobExecution)
      (report1 report2 : FailedJobs) :
  jobs_list pipeline1 = Ok jobs1 -> bridges_list pipeline1 = Ok bridges1 ->
  jobs_list pipeline2 = Ok jobs2 -> bridges_list pipeline2 = Ok bridges2 ->
  Permutation (jobs1 ++ bridges1) (jobs2 ++ bridges2) ->
  (forall n, NoDup (map created_at (failed_attempts (jobs1 ++ bridges1) n))) ->
  get_failed_jobs mapping trace pipeline1 = Ok report1 ->
  get_failed_jobs mapping trace pipeline2 = Ok report2 ->
  forall entry,
    In entry (all_failures report1) <-> In entry (all_failures report2).
Proof.
  intros Hj1 Hb1 Hj2 Hb2 Hp Hnd Hr1 Hr2 entry.
  destruct (get_failed_jobs_entries mapping trace pipeline1 jobs1 bridges1
                                    report1 Hj1 Hb1 Hr1) as (Hx1 & _ & Hm1).
  destruct (get_failed_jobs_entries mapping trace pipeline2 jobs2 bridges2
                                    report2 Hj2 Hb2 Hr2) as (Hx2 & _ & Hm2).
  unfold all_failures. rewrite Hx1, Hx2, !app_nil_r, Hm1, Hm2.
  assert (Hnd2 : forall n,
             NoDup (map created_at (failed_attempts (jobs2 ++ bridges2) n))).
  { intros n. eapply Permutation_NoDup; [| apply (Hnd n)].
    apply Permutation_map, failed_attempts_perm, Hp. }
  split; intros (n & Hne & Hentry & Hrep); exists n.
  - split; [| split; [| exact Hrep]].
    + intros E. apply Hne. apply Permutation_nil. rewrite <- E.
      apply Permutation_sym, failed_attempts_perm, Hp.
    + eapply entry_of_perm; [exact Hp | apply Hnd | exact Hentry].
  - split; [| split; [| exact Hrep]].
    + intros E. apply Hne. apply Permutation_nil. rewrite <- E.
      apply failed_attempts_perm, Hp.
    + eapply entry_of_perm;
        [apply Permutation_sym; exact Hp | apply Hnd2 | exact Hentry].
Qed.

(** C5, on a job that failed, succeeded on a retry and failed again: three
    executions bear the name, in the order failed, success, failed, and the
    retry summary of the entry has the two failed ones only. *)
Lemma retry_summary_omits_other_attempts :
  exists report entry,
    get_failed_jobs Ex.mapping Ex.trace_ok Ex.unstable = Ok report
    /\ all_failures report = [entry]
    /\ fj_full_name entry = "e2e"
    /\ fj_retry_summary entry = ["failed"; "failed"]
    /\ map status
           (sort_by_created_at
              (attempts [ Ex.job "e2e" 1 "failed" 10 false;
                          Ex.job "e2e" 2 "success" 20 false;
                          Ex.job "e2e" 3 "failed" 30 false ] "e2e"))
       = ["failed"; "success"; "failed"].
Proof.
  eexists. eexists. split; [vm_compute; reflexivity |].
  repeat split; reflexivity.
Qed.

(** ** Failed log fetches *)

(** C2, as stated, fails: the trace of the first failed job cannot be
    fetched, and [get_failed_jobs] raises instead of returning the report
    that an empty log for that job would give. *)
Lemma trace_failure_aborts_report :
  get_failed_jobs Ex.mapping Ex.trace_flaky Ex.two_failed
  = Raise (TransportError "502 Bad Gateway")
  /\ exists report,
      get_failed_jobs Ex.mapping (trace_or_empty Ex.trace_flaky) Ex.two_failed
      = Ok report
      /\ map fj_full_name (all_failures report)
         = ["build:amd64"; "build:arm64"; "deploy"]
      /\ map fj_failure_reason (all_failures report)
         = [GITLAB; FAILED_JOB_SCRIPT; FAILED_BRIDGE_JOB].
Proof.
  split; [vm_compute; reflexivity |].
  eexists. split; [vm_compute; reflexivity |].
  split; reflexivity.
Qed.

(** C2, amended.  [get_failed_jobs] has no fallback for a trace that cannot
    be fetched: when the fetch raises for the canonical attempt of some
    failed group, the call raises and there is no report; it returns a
    report exactly when the fetch succeeds for the canonical attempt of
    every failed group (a bridge needs none). *)
Theorem get_failed_jobs_trace_error
        (mapping : list (string * FailedJobReason)) (trace : Z -> result string)
        (pipeline : ProjectPipeline) (jobs bridges : list JobExecution) :
  jobs_list pipeline = Ok jobs ->
  bridges_list pipeline = Ok bridges ->
  let canonical n job :=
    failed_attempts (jobs ++ bridges) n <> []
    /\ last_job (sort_by_created_at (failed_attempts (jobs ++ bridges) n))
       = Ok job in
  ((exists n job e,
       canonical n job /\ is_bridge job = false /\ trace (id job) = Raise e) ->
   exists e, get_failed_jobs mapping trace pipeline = Raise e)
  /\ ((exists report, get_failed_jobs mapping trace pipeline = Ok report) <->
      (forall n job, canonical n job -> exists log, job_log trace job = Ok log)).
Proof.
  intros Hj Hb. cbv zeta. split; [| split].
  - intros (n & job & e & [Hne Hjob] & Hbridge & Htrace).
    unfold get_failed_jobs. rewrite Hj, Hb. simpl.
    apply (process_groups_Raise mapping trace _ _ n
             (failed_attempts (jobs ++ bridges) n) job e).
    + apply group_failed_spec. auto.
    + exact Hjob.
    + unfold job_log. rewrite Hbridge. exact Htrace.
  - intros [report Hr] n job [Hne Hjob].
    destruct (get_failed_jobs_entries mapping trace pipeline jobs bridges report
                                      Hj Hb Hr) as (_ & He & _).
    destruct (He n Hne) as (entry & job' & log & Hjob' & Hlog & _).
    rewrite Hjob in Hjob'. injection Hjob' as <-. eauto.
  - intros Hall. unfold get_failed_jobs. rewrite Hj, Hb. simpl.
    apply process_groups_total. intros n group Hin.
    apply group_failed_spec in Hin. destruct Hin as [-> Hne].
    destruct (canonical_attempt _ Hne) as (job & Hjob & _).
    destruct (Hall n job (conj Hne Hjob)) as [log Hlog].
    eexists. exists job, log. eauto.
Qed.

Lemma get_failed_jobs_trace_error_witness :
  exists e, get_failed_jobs Ex.mapping Ex.trace_flaky Ex.two_failed = Raise e.
Proof.
  destruct (get_failed_jobs_trace_error
              Ex.mapping Ex.trace_flaky Ex.two_failed
              [ Ex.job "build:amd64" 1 "failed" 10 false;
                Ex.job "build:arm64" 2 "failed" 11 false ]
              [ Ex.bridge "deploy" 3 "failed" 12 ]
              eq_refl eq_refl) as [H _].
  apply H.
  exists "build:amd64", (Ex.job "build:amd64" 1 "failed" 10 false),
         (TransportError "502 Bad Gateway").
  split; [split; [discriminate | reflexivity] |].
  split; reflexivity.
Defined.

(** ** Jobs allowed to fail *)

Lemma should_report_job_true (job_name : string) (allow_failure : bool) :
  should_report_job job_name allow_failure = true <->
  allow_failure = false
  \/ Re.any_fullmatch jobs_allowed_to_fail_but_need_report job_name = true.
Proof.
  unfold should_report_job. rewrite orb_true_iff, negb_true_iff. tauto.
Qed.

(** C3, as stated, fails: [lint] failed and is allowed to fail, [build]
    failed and is not; the report holds the entry of [build] and nothing
    for [lint], in neither of its parts. *)
Lemma allowed_failure_not_retained :
  exists report,
    get_failed_jobs Ex.mapping Ex.trace_ok Ex.lint_and_build = Ok report
    /\ map fj_full_name (mandatory_failures report) = ["build"]
    /\ excluded_failures report = []
    /\ ~ reported report "lint".
Proof.
  eexists. split; [vm_compute; reflexivity |].
  split; [reflexivity |]. split; [reflexivity |].
  intros (entry & Hin & Hn). simpl in Hin.
  destruct Hin as [<- | []]. discriminate Hn.
Qed.

(** C3, amended.  The job object built for a failed group is added to the
    report only when [should_report_job] accepts it.  One that is allowed to
    fail and whose display name matches no pattern of
    [jobs_allowed_to_fail_but_need_report] is dropped: the report has no
    entry for its name.  One that is not allowed to fail, or whose display
    name matches the list, is added and is mandatory.  So every entry of a
    report is mandatory and failed, and the excluded part is empty. *)
Theorem allowed_failures_are_dropped
        (mapping : list (string * FailedJobReason)) (trace : Z -> result string)
        (pipeline : ProjectPipeline) (jobs bridges : list JobExecution)
        (report : FailedJobs) :
  jobs_list pipeline = Ok jobs ->
  bridges_list pipeline = Ok bridges ->
  get_failed_jobs mapping trace pipeline = Ok report ->
  let matches_list entry :=
    Re.any_fullmatch jobs_allowed_to_fail_but_need_report (fj_name entry) in
  excluded_failures report = []
  /\ (forall entry,
         In entry (all_failures report) ->
         In entry (all_mandatory_failures report)
         /\ fj_status entry = "failed"
         /\ (fj_allow_failure entry = false \/ matches_list entry = true))
  /\ (forall n entry,
         failed_attempts (jobs ++ bridges) n <> [] ->
         entry_of mapping trace n (failed_attempts (jobs ++ bridges) n) entry ->
         (fj_allow_failure entry = true -> matches_list entry = false ->
          ~ reported report n)
         /\ (fj_allow_failure entry = false \/ matches_list entry = true ->
             In entry (all_mandatory_failures report))).
Proof.
  intros Hj Hb Hr. cbv zeta.
  destruct (get_failed_jobs_entries mapping trace pipeline jobs bridges report
                                    Hj Hb Hr) as (Hx & He & Hm).
  assert (Hall : forall entry,
             In entry (all_failures report) ->
             In entry (mandatory_failures report)).
  { intros entry Hin. unfold all_failures in Hin.
    now rewrite Hx, app_nil_r in Hin. }
  split; [exact Hx |]. split.
  - intros entry Hin. apply Hall in Hin.
    split; [exact Hin |].
    apply Hm in Hin. destruct Hin as (n & Hne & Hentry & Hrep).
    split; [| now apply should_report_job_true].
    pose proof Hentry as (job & log & Hjob & _ & _).
    destruct (entry_of_fields _ _ _ _ _ _ Hentry Hjob) as (_ & _ & _ & H4 & _).
    rewrite H4.
    apply last_job_in in Hjob.
    apply (Permutation_in _ (sort_by_created_at_perm _)) in Hjob.
    now apply failed_attempts_failed in Hjob.
  - intros n entry Hne Hentry. split.
    + intros Haf Hno (entry' & Hin & Hn).
      apply Hall, Hm in Hin. destruct Hin as (n' & _ & Hentry' & Hrep).
      destruct (entry_of_full_name _ _ _ _ _ Hentry') as [Hfull _].
      assert (Heq : n' = n) by congruence.
      rewrite Heq in Hentry'.
      assert (entry' = entry)
        by (eapply entry_of_functional; eassumption).
      subst entry'.
      apply should_report_job_true in Hrep. destruct Hrep; congruence.
    + intros Hrep. unfold all_mandatory_failures. apply Hm.
      exists n. split; [exact Hne |]. split; [exact Hentry |].
      now apply should_report_job_true.
Qed.

Lemma allowed_failures_are_dropped_witness :
  exists report,
    get_failed_jobs Ex.mapping Ex.trace_ok Ex.lint_and_build = Ok report
    /\ excluded_failures report = []
    /\ ~ reported report "lint".
Proof.
  destruct (get_failed_jobs Ex.mapping Ex.trace_ok Ex.lint_and_build)
    as [report |] eqn:E; [| discriminate E].
  destruct (allowed_failures_are_dropped
              Ex.mapping Ex.trace_ok Ex.lint_and_build
              [ Ex.job "lint" 1 "failed" 10 true;
                Ex.job "build" 2 "failed" 11 false ] [] report
              eq_refl eq_refl E) as (Hx & _ & H).
  exists report. split; [reflexivity |]. split; [exact Hx |].
  destruct (H "lint"
              (final_status_of Ex.mapping "lint"
                               [Ex.job "lint" 1 "failed" 10 true]
                               (Ex.job "lint" 1 "failed" 10 true)
                               "make: *** [test] Error 1")) as [Hdrop _].
  - discriminate.
  - exists (Ex.job "lint" 1 "failed" 10 true), "make: *** [test] Error 1".
    repeat split; reflexivity.
  - apply Hdrop; reflexivity.
Defined.

(** ** The pull-request skip correlator *)

Lemma scan_pr_jobs_spec (jobs : list JobExecution) (failed_job : FinalJobStatus)
      (generated : bool) (missed_jobs : list string) :
  scan_pr_jobs jobs failed_job generated missed_jobs
  = if existsb (fun job => same_name failed_job job && negb (terminal_status job))
               jobs
    then (true, missed_jobs ++ [fj_name failed_job])
    else (generated || existsb (same_name failed_job) jobs, missed_jobs).
Proof.
  revert generated. unfold same_name.
  induction jobs as [| job jobs IH]; simpl; intros generated.
  - now rewrite orb_false_r.
  - destruct (String.eqb (name job) (fj_full_name failed_job)); simpl.
    + destruct (terminal_status job); simpl.
      * rewrite IH. destruct (existsb _ jobs); [reflexivity |].
        now rewrite orb_true_r.
      * reflexivity.
    + apply IH.
Qed.

Lemma correlate_step_spec (jobs : list JobExecution) (missed_jobs : list string)
      (failed_job : FinalJobStatus) :
  correlate_step jobs missed_jobs failed_job
  = if skipped_on_pr jobs failed_job
    then missed_jobs ++ [fj_name failed_job] else missed_jobs.
Proof.
  unfold correlate_step, skipped_on_pr. rewrite scan_pr_jobs_spec.
  unfold same_name.
  destruct (existsb (fun job => _ && negb (terminal_status job)) jobs); simpl.
  - now rewrite orb_true_r.
  - rewrite orb_false_r.
    destruct (existsb _ jobs); reflexivity.
Qed.

Lemma correlate_spec (jobs : list JobExecution) (failures : list FinalJobStatus)
      (missed_jobs : list string) :
  correlate jobs failures missed_jobs
  = missed_jobs ++ map fj_name (filter (skipped_on_pr jobs) failures).
Proof.
  unfold correlate. revert missed_jobs.
  induction failures as [| failed_job failures IH]; simpl; intros missed_jobs.
  - now rewrite app_nil_r.
  - rewrite IH, correlate_step_spec.
    destruct (skipped_on_pr jobs failed_job); simpl.
    + now rewrite <- app_assoc.
    + reflexivity.
Qed.

Lemma terminal_status_true (job : JobExecution) :
  terminal_status job = true <-> status job = "failed" \/ status job = "success".
Proof.
  unfold terminal_status, Str.mem. simpl.
  rewrite !orb_true_iff, !String.eqb_eq. intuition discriminate.
Qed.

Lemma terminal_status_false (job : JobExecution) :
  terminal_status job = false <->
  status job <> "failed" /\ status job <> "success".
Proof.
  rewrite <- not_true_iff_false, terminal_status_true. tauto.
Qed.

Lemma skipped_on_pr_true (jobs : list JobExecution) (failed_job : FinalJobStatus) :
  skipped_on_pr jobs failed_job = true <->
  (forall job, In job jobs -> name job <> fj_full_name failed_job)
  \/ (exists job, In job jobs /\ name job = fj_full_name failed_job
                  /\ status job <> "failed" /\ status job <> "success").
Proof.
  unfold skipped_on_pr. rewrite orb_true_iff, negb_true_iff.
  rewrite <- not_true_iff_false, !existsb_exists. split.
  - intros [Hno | (job & Hin & H)].
    + left. intros job Hin Heq. apply Hno. exists job.
      split; [exact Hin | now apply String.eqb_eq].
    + right. apply andb_true_iff in H. destruct H as [Hn Ht].
      apply String.eqb_eq in Hn. apply negb_true_iff in Ht.
      apply terminal_status_false in Ht. exists job. tauto.
  - intros [Hno | (job & Hin & Hn & Ht)].
    + left. intros (job & Hin & Heq). apply String.eqb_eq in Heq.
      now apply (Hno job).
    + right. exists job. split; [exact Hin |].
      apply andb_true_iff. split; [now apply String.eqb_eq |].
      apply negb_true_iff. now apply terminal_status_false.
Qed.

Lemma skipped_on_pr_false (jobs : list JobExecution) (failed_job : FinalJobStatus) :
  skipped_on_pr jobs failed_job = false <->
  (exists job, In job jobs /\ name job = fj_full_name failed_job)
  /\ (forall job, In job jobs -> name job = fj_full_name failed_job ->
                  status job = "failed" \/ status job = "success").
Proof.
  unfold skipped_on_pr. rewrite orb_false_iff, negb_false_iff.
  rewrite <- not_true_iff_false, !existsb_exists. split.
  - intros [(job & Hin & Hn) Hnone]. split.
    + exists job. split; [exact Hin | now apply String.eqb_eq].
    + intros j Hj Hjn. apply terminal_status_true.
      destruct (terminal_status j) eqn:Et; [reflexivity |].
      exfalso. apply Hnone. exists j. split; [exact Hj |].
      apply andb_true_iff. split; [now apply String.eqb_eq |].
      now rewrite Et.
  - intros [(job & Hin & Hn) Hall]. split.
    + exists job. split; [exact Hin | now apply String.eqb_eq].
    + intros (j & Hj & H). apply andb_true_iff in H. destruct H as [Hjn Ht].
      apply String.eqb_eq in Hjn. apply negb_true_iff in Ht.
      apply terminal_status_false in Ht.
      destruct (Hall j Hj Hjn); tauto.
Qed.

(** C8. With one pull request and a pipeline for its branch, the correlator
    goes through the mandatory failures and compares the name of each
    execution of that pipeline with the failure's [full_name], by string
    equality.  A failure is counted as skipped when no execution bears its
    full name, or when one that does has a status other than [failed] and
    [success]; it is not counted when some execution bears the full name and
    each that does is [failed] or [success]. *)
Theorem skipped_iff_absent_or_unfinished
        (get_pulls : string -> result (list PullRequest))
        (pipelines_list : string -> result (list ProjectPipeline))
        (pipeline : ProjectPipeline) (failed_jobs : FailedJobs)
        (pr : PullRequest) (pr_pipeline : ProjectPipeline)
        (others : list ProjectPipeline) (jobs bridges : list JobExecution) :
  get_pulls (sha pipeline) = Ok [pr] ->
  pipelines_list (head_ref pr) = Ok (pr_pipeline :: others) ->
  jobs_list pr_pipeline = Ok jobs ->
  bridges_list pr_pipeline = Ok bridges ->
  let pr_jobs := jobs ++ bridges in
  get_jobs_skipped_on_pr get_pulls pipelines_list pipeline failed_jobs
  = ([], Ok (map fj_name (filter (skipped_on_pr pr_jobs)
                                 (all_mandatory_failures failed_jobs)),
             pipeline_web_url pr_pipeline))
  /\ forall failed_job,
      (skipped_on_pr pr_jobs failed_job = true <->
       (forall job, In job pr_jobs -> name job <> fj_full_name failed_job)
       \/ (exists job, In job pr_jobs /\ name job = fj_full_name failed_job
                       /\ status job <> "failed" /\ status job <> "success"))
      /\ (skipped_on_pr pr_jobs failed_job = false <->
          (exists job, In job pr_jobs /\ name job = fj_full_name failed_job)
          /\ (forall job, In job pr_jobs ->
                          name job = fj_full_name failed_job ->
                          status job = "failed" \/ status job = "success")).
Proof.
  intros Hprs Hpipes Hjobs Hbridges. cbv zeta. split.
  - unfold get_jobs_skipped_on_pr. rewrite Hprs. simpl.
    rewrite Hpipes. simpl. rewrite Hjobs, Hbridges. simpl.
    now rewrite correlate_spec.
  - intros failed_job. split.
    + apply skipped_on_pr_true.
    + apply skipped_on_pr_false.
Qed.

Lemma skipped_iff_absent_or_unfinished_witness :
  exists report,
    get_failed_jobs Ex.mapping Ex.trace_ok Ex.two_failed = Ok report
    /\ get_jobs_skipped_on_pr Ex.one_pr Ex.pr_pipelines Ex.two_failed report
       = ([], Ok (["build"; "deploy"], "https://ci/pipeline/2")).
Proof.
  destruct (get_failed_jobs Ex.mapping Ex.trace_ok Ex.two_failed)
    as [report |] eqn:E; [| discriminate E].
  exists report. split; [reflexivity |].
  destruct (skipped_iff_absent_or_unfinished
              Ex.one_pr Ex.pr_pipelines Ex.two_failed report
              (mkPR 42 "feature") Ex.pr_pipeline []
              [ Ex.job "build:amd64" 11 "success" 1 false;
                Ex.job "build:arm64" 12 "running" 1 false;
                Ex.job "Deploy" 13 "success" 1 false ] []
              eq_refl eq_refl eq_refl eq_refl) as [H _].
  rewrite H. vm_compute in E. injection E as <-. reflexivity.
Defined.

(** C9. The correlator returns the empty list and the empty URL, and does
    not raise, when no pull request has the commit, when more than one has
    it (after a warning) and when the branch of the only pull request has
    no pipeline (after a message). *)
Theorem no_correlation_returns_empty
        (get_pulls : string -> result (list PullRequest))
        (pipelines_list : string -> result (list ProjectPipeline))
        (pipeline : ProjectPipeline) (failed_jobs : FailedJobs) :
  let outcome :=
    get_jobs_skipped_on_pr get_pulls pipelines_list pipeline failed_jobs in
  (get_pulls (sha pipeline) = Ok [] -> outcome = ([], Ok ([], "")))
  /\ (forall prs, get_pulls (sha pipeline) = Ok prs -> 1 < length prs ->
                  outcome = ([MultiplePRsFound (sha pipeline) (map number prs)],
                             Ok ([], "")))
  /\ (forall pr, get_pulls (sha pipeline) = Ok [pr] ->
                 pipelines_list (head_ref pr) = Ok [] ->
                 outcome = ([NoPipelineFound (head_ref pr)], Ok ([], ""))).
Proof.
  cbv zeta. unfold get_jobs_skipped_on_pr. split; [| split].
  - intros ->. reflexivity.
  - intros prs -> Hlen.
    destruct prs as [| pr1 [| pr2 prs]]; simpl in Hlen; try lia.
    reflexivity.
  - intros pr -> Hpipes. simpl. rewrite Hpipes. reflexivity.
Qed.

Lemma no_correlation_returns_empty_witness :
  get_jobs_skipped_on_pr Ex.no_pr Ex.pr_pipelines Ex.two_failed empty_FailedJobs
  = ([], Ok ([], ""))
  /\ get_jobs_skipped_on_pr Ex.two_prs Ex.pr_pipelines Ex.two_failed
                            empty_FailedJobs
     = ([MultiplePRsFound "c0ffee" [42%Z; 43%Z]], Ok ([], ""))
  /\ get_jobs_skipped_on_pr Ex.one_pr Ex.no_pipeline Ex.two_failed
                            empty_FailedJobs
     = ([NoPipelineFound "feature"], Ok ([], "")).
Proof.
  split; [| split].
  - destruct (no_correlation_returns_empty
                Ex.no_pr Ex.pr_pipelines Ex.two_failed empty_FailedJobs)
      as (H & _ & _).
    apply H. reflexivity.
  - destruct (no_correlation_returns_empty
                Ex.two_prs Ex.pr_pipelines Ex.two_failed empty_FailedJobs)
      as (_ & H & _).
    apply (H [mkPR 42 "feature"; mkPR 43 "backport"]); [reflexivity |].
    simpl. lia.
  - destruct (no_correlation_returns_empty
                Ex.one_pr Ex.no_pipeline Ex.two_failed empty_FailedJobs)
      as (_ & _ & H).
    apply (H (mkPR 42 "feature")); reflexivity.
Defined.

(** C10. Every name in the list the correlator returns is the [name] field
    of a mandatory failure it judged skipped, and for a report of
    [get_failed_jobs] that field is the truncated display name of the
    [full_name] used for matching; the list is the display names of the
    skipped failures in order, so two skipped failures whose full names
    truncate alike give two equal strings. *)
Theorem skipped_names_are_display_names
        (mapping : list (string * FailedJobReason)) (trace : Z -> result string)
        (get_pulls : string -> result (list PullRequest))
        (pipelines_list : string -> result (list ProjectPipeline))
        (pipeline : ProjectPipeline) (report : FailedJobs)
        (printed : list message) (skipped : list string) (url : string) :
  get_failed_jobs mapping trace pipeline = Ok report ->
  get_jobs_skipped_on_pr get_pulls pipelines_list pipeline report
  = (printed, Ok (skipped, url)) ->
  (forall failed_job,
      In failed_job (all_mandatory_failures report) ->
      fj_name failed_job
      = truncate_job_name (fj_full_name failed_job) max_char_per_job_default)
  /\ (exists judged,
         skipped = map fj_name judged
         /\ incl judged (all_mandatory_failures report))
  /\ (forall n, In n skipped ->
                exists failed_job,
                  In failed_job (all_mandatory_failures report)
                  /\ n = truncate_job_name (fj_full_name failed_job)
                                           max_char_per_job_default).
Proof.
  intros Hr Hs.
  assert (Hnames : forall failed_job,
             In failed_job (all_mandatory_failures report) ->
             fj_name failed_job
             = truncate_job_name (fj_full_name failed_job)
                                 max_char_per_job_default).
  { intros failed_job Hin. pose proof Hr as Hr'.
    unfold get_failed_jobs in Hr'.
    destruct (jobs_list pipeline) as [jobs |] eqn:Hj; [| discriminate Hr'].
    destruct (bridges_list pipeline) as [bridges |] eqn:Hb;
      [| discriminate Hr'].
    destruct (get_failed_jobs_entries mapping trace pipeline jobs bridges report
                                      Hj Hb Hr) as (_ & _ & Hm).
    apply Hm in Hin. destruct Hin as (n & _ & Hentry & _).
    destruct (entry_of_full_name _ _ _ _ _ Hentry) as [Hfull Hname].
    now rewrite Hname, Hfull. }
  assert (Hjudged : exists judged,
             skipped = map fj_name judged
             /\ incl judged (all_mandatory_failures report)).
  { unfold get_jobs_skipped_on_pr in Hs.
    assert (Hnil : exists judged : list FinalJobStatus,
               @nil string = map fj_name judged
               /\ incl judged (all_mandatory_failures report)).
    { exists []. split; [reflexivity | intros x []]. }
    destruct (get_pulls (sha pipeline)) as [prs |]; [| discriminate Hs].
    destruct prs as [| pr [| pr2 prs]]; simpl in Hs.
    - injection Hs as _ <- _. exact Hnil.
    - destruct (pipelines_list (head_ref pr)) as [pipelines |];
        [| discriminate Hs].
      destruct pipelines as [| pr_pipeline others]; simpl in Hs.
      + injection Hs as _ <- _. exact Hnil.
      + destruct (jobs_list pr_pipeline) as [jobs |]; [| discriminate Hs].
        destruct (bridges_list pr_pipeline) as [bridges |];
          [| discriminate Hs].
        simpl in Hs. injection Hs as _ <- _.
        rewrite correlate_spec. simpl.
        exists (filter (skipped_on_pr (jobs ++ bridges))
                       (all_mandatory_failures report)).
        split; [reflexivity |].
        intros x Hx. apply filter_In in Hx. tauto.
    - injection Hs as _ <- _. exact Hnil. }
  split; [exact Hnames |]. split; [exact Hjudged |].
  intros n Hn. destruct Hjudged as (judged & -> & Hincl).
  apply in_map_iff in Hn. destruct Hn as (failed_job & <- & Hin).
  exists failed_job. split; [now apply Hincl |].
  apply Hnames. now apply Hincl.
Qed.

Lemma skipped_names_are_display_names_witness :
  exists report,
    get_failed_jobs Ex.mapping Ex.trace_ok Ex.two_failed = Ok report
    /\ map fj_full_name (all_mandatory_failures report)
       = ["build:amd64"; "build:arm64"; "deploy"]
    /\ get_jobs_skipped_on_pr Ex.one_pr Ex.pr_pipelines_idle Ex.two_failed report
       = ([], Ok (["build"; "build"], "https://ci/pipeline/3"))
    /\ forall n, In n ["build"; "build"] ->
                 exists failed_job,
                   In failed_job (all_mandatory_failures report)
                   /\ n = truncate_job_name (fj_full_name failed_job)
                                            max_char_per_job_default.
Proof.
  destruct (get_failed_jobs Ex.mapping Ex.trace_ok Ex.two_failed)
    as [report |] eqn:E; [| discriminate E].
  assert (Hs : get_jobs_skipped_on_pr Ex.one_pr Ex.pr_pipelines_idle
                                      Ex.two_failed report
               = ([], Ok (["build"; "build"], "https://ci/pipeline/3"))).
  { vm_compute in E. injection E as <-. reflexivity. }
  exists report. split; [reflexivity |]. split.
  - vm_compute in E. injection E as <-. reflexivity.
  - split; [exact Hs |].
    apply (skipped_names_are_display_names
             Ex.mapping Ex.trace_ok Ex.one_pr Ex.pr_pipelines_idle
             Ex.two_failed report [] ["build"; "build"]
             "https://ci/pipeline/3" E Hs).
Defined.

(* ===================================================================== *)
(** * Further properties *)
(* ===================================================================== *)

(** ** More on strings *)

Lemma string_append_nil_r (s : string) : (s ++ "")%string = s.
Proof. induction s as [| c s IH]; simpl; [reflexivity | now rewrite IH]. Qed.

Lemma string_append_assoc (s1 s2 s3 : string) :
  ((s1 ++ s2) ++ s3)%string = (s1 ++ (s2 ++ s3))%string.
Proof. induction s1 as [| c s1 IH]; simpl; [reflexivity | now rewrite IH]. Qed.




(** ** More on the classifier *)

Lemma scan_rules_None (table : list (Re.regex * FailedJobReason))
      (job_log : string) :
  scan_rules table job_log = None <->
  forallb (fun rule => negb (Re.search (fst rule) job_log)) table = true.
Proof.
  split; [| apply scan_rules_none].
  induction table as [| [r t] table IH]; simpl; intros H.
  - reflexivity.
  - destruct (Re.search r job_log); [discriminate |]. simpl. now apply IH.
Qed.

(** X1. The classification is JOB_FAILURE exactly when the job is not a
    bridge, its platform failure reason is not in the table, its log is not
    empty and no pattern of [infra_failure_logs] is found in the log; the
    reason is then FAILED_JOB_SCRIPT. *)
Theorem job_failure_iff_no_signature
        (get_infra_failure_mapping : list (string * FailedJobReason))
        (job : JobExecution) (job_log : string) :
  let context := get_job_failure_context get_infra_failure_mapping job job_log in
  (fst context = JOB_FAILURE <->
   is_bridge job = false
   /\ infra_mapped_reason get_infra_failure_mapping job = None
   /\ job_log <> ""
   /\ forallb (fun rule => negb (Re.search (fst rule) job_log))
              infra_failure_logs = true)
  /\ (fst context = JOB_FAILURE -> snd context = FAILED_JOB_SCRIPT).
Proof.
  cbv zeta. unfold get_job_failure_context, get_infra_failure_info.
  destruct (is_bridge job).
  - cbn [fst snd]. split; [| discriminate].
    split; [discriminate | intros (H & _); discriminate H].
  - destruct (infra_mapped_reason get_infra_failure_mapping job) as [r |].
    + cbn [fst snd]. split; [| discriminate].
      split; [discriminate | intros (_ & H & _); discriminate H].
    + destruct (Str.is_empty job_log) eqn:Ee.
      * cbn [fst snd]. split; [| discriminate].
        split; [discriminate |].
        intros (_ & _ & H & _). destruct job_log; [now elim H | discriminate Ee].
      * assert (Hne : job_log <> "") by (intros ->; discriminate Ee).
        destruct (scan_rules infra_failure_logs job_log) as [t |] eqn:E;
          cbn [fst snd].
        -- split; [| discriminate].
           split; [discriminate |].
           intros (_ & _ & _ & H). apply scan_rules_None in H. congruence.
        -- split; [| reflexivity].
           split; [| reflexivity].
           intros _. split; [reflexivity |]. split; [reflexivity |].
           split; [exact Hne |]. now apply scan_rules_None.
Qed.

Lemma job_failure_iff_no_signature_witness :
  get_job_failure_context Ex.mapping (Ex.job "unit_tests" 1 "failed" 10 false)
                          Ex.script_error
  = (JOB_FAILURE, FAILED_JOB_SCRIPT).
Proof.
  destruct (job_failure_iff_no_signature
              Ex.mapping (Ex.job "unit_tests" 1 "failed" 10 false)
              Ex.script_error) as [[_ Hif] Hreason].
  assert (Htype : fst (get_job_failure_context
                         Ex.mapping (Ex.job "unit_tests" 1 "failed" 10 false)
                         Ex.script_error) = JOB_FAILURE).
  { apply Hif.
    split; [reflexivity |]. split; [reflexivity |].
    split; [discriminate | vm_compute; reflexivity]. }
  specialize (Hreason Htype).
  destruct (get_job_failure_context _ _ _) as [t r]. simpl in *.
  now subst.
Defined.

Lemma search_in_context (r : Re.regex) (before s after : string) :
  Re.search r s = true ->
  Re.search r (before ++ s ++ after)%string = true.
Proof.
  rewrite !search_matches. intros (s0 & s1 & s2 & -> & H).
  exists (before ++ s0)%string, s1, (s2 ++ after)%string.
  split; [| exact H].
  now rewrite !string_append_assoc.
Qed.

Lemma scan_rules_in_context (table : list (Re.regex * FailedJobReason))
      (before s after : string) (reason : FailedJobReason) :
  scan_rules table s = Some reason ->
  exists reason', scan_rules table (before ++ s ++ after)%string = Some reason'.
Proof.
  induction table as [| [r t] table IH]; simpl; intros H.
  - discriminate.
  - destruct (Re.search r (before ++ s ++ after)%string) eqn:E; [eauto |].
    destruct (Re.search r s) eqn:Es; [| now apply IH].
    rewrite (search_in_context r before s after Es) in E. discriminate.
Qed.

(** X2. An infrastructure classification survives more log text: when a
    non-empty log is classified INFRA_FAILURE, so is every log that has it
    as a substring. *)
Theorem infra_failure_survives_more_log
        (get_infra_failure_mapping : list (string * FailedJobReason))
        (job : JobExecution) (before job_log after : string) :
  job_log <> "" ->
  fst (get_job_failure_context get_infra_failure_mapping job job_log)
  = INFRA_FAILURE ->
  fst (get_job_failure_context get_infra_failure_mapping job
                               (before ++ job_log ++ after)%string)
  = INFRA_FAILURE.
Proof.
  intros Hne. unfold get_job_failure_context, get_infra_failure_info.
  destruct (is_bridge job); [trivial |].
  destruct (infra_mapped_reason get_infra_failure_mapping job); [trivial |].
  rewrite (is_empty_false _ Hne).
  assert (Hne' : (before ++ job_log ++ after)%string <> "").
  { intros E. destruct before; [| discriminate E].
    destruct job_log; [now apply Hne | discriminate E]. }
  rewrite (is_empty_false _ Hne').
  destruct (scan_rules infra_failure_logs job_log) as [t |] eqn:E.
  - destruct (scan_rules_in_context infra_failure_logs before job_log after t E)
      as [t' ->]. trivial.
  - discriminate.
Qed.

Lemma infra_failure_survives_more_log_witness :
  fst (get_job_failure_context
         Ex.mapping (Ex.job "new-e2e" 1 "failed" 10 false)
         ("$ inv new-e2e-tests.run " ++ "E2E INTERNAL ERROR"
          ++ ": could not provision"))
  = INFRA_FAILURE.
Proof.
  apply (infra_failure_survives_more_log
           Ex.mapping (Ex.job "new-e2e" 1 "failed" 10 false)
           "$ inv new-e2e-tests.run " "E2E INTERNAL ERROR"
           ": could not provision").
  - discriminate.
  - vm_compute. reflexivity.
Defined.

(** X3. With a platform-code table that maps no code to FAILED_JOB_SCRIPT,
    a classification has the reason FAILED_JOB_SCRIPT exactly when its type
    is JOB_FAILURE: the pattern table never gives that reason. *)
Theorem job_failure_iff_failed_job_script
        (get_infra_failure_mapping : list (string * FailedJobReason))
        (Hmapping : forall code,
            from_gitlab_job_failure_reason get_infra_failure_mapping code
            <> Some FAILED_JOB_SCRIPT)
        (job : JobExecution) (job_log : string) :
  let context := get_job_failure_context get_infra_failure_mapping job job_log in
  fst context = JOB_FAILURE <-> snd context = FAILED_JOB_SCRIPT.
Proof.
  cbv zeta. unfold get_job_failure_context.
  destruct (is_bridge job).
  - simpl. split; discriminate.
  - destruct (infra_mapped_reason get_infra_failure_mapping job) as [r |] eqn:Em.
    + simpl. split; [discriminate |].
      intros ->. exfalso. unfold infra_mapped_reason in Em.
      destruct (failure_reason job) as [code |]; [| discriminate].
      exact (Hmapping code Em).
    + destruct (get_infra_failure_info job_log) as [t |] eqn:Ei; simpl.
      * split; [discriminate |].
        intros ->. apply get_infra_failure_info_reasons in Ei.
        intuition discriminate.
      * tauto.
Qed.

Lemma job_failure_iff_failed_job_script_witness :
  fst (get_job_failure_context Ex.mapping
                               (Ex.job "unit_tests" 1 "failed" 10 false)
                               Ex.script_error) = JOB_FAILURE
  <-> snd (get_job_failure_context Ex.mapping
                                   (Ex.job "unit_tests" 1 "failed" 10 false)
                                   Ex.script_error) = FAILED_JOB_SCRIPT.
Proof.
  apply (job_failure_iff_failed_job_script Ex.mapping).
  intros code. unfold from_gitlab_job_failure_reason, Ex.mapping.
  cbn [lookup_code].
  repeat match goal with
         | |- context [String.eqb ?a code] => destruct (String.eqb a code)
         end; discriminate.
Defined.

(** ** More on job names *)





Lemma matches_Lit (s : string) : Re.matches (Re.Lit s) s.
Proof.
  induction s as [| c s IH]; simpl.
  - constructor.
  - change (String c s) with (String c "" ++ s)%string.
    constructor; [constructor | exact IH].
Qed.

Lemma matches_Star_Dot (s : string) :
  no_newline s = true -> Re.matches (Re.Star Re.Dot) s.
Proof.
  induction s as [| c s IH]; simpl; intros H.
  - constructor.
  - apply andb_true_iff in H. destruct H as [Hc Hs].
    apply negb_true_iff, Ascii.eqb_neq in Hc.
    change (String c s) with (String c "" ++ s)%string.
    apply Re.MStarS; [now constructor | now apply IH].
Qed.

Lemma matches_Plus_Dot (s : string) :
  s <> "" -> no_newline s = true -> Re.matches (Re.Plus Re.Dot) s.
Proof.
  destruct s as [| c s]; [congruence |]. simpl. intros _ H.
  apply andb_true_iff in H. destruct H as [Hc Hs].
  apply negb_true_iff, Ascii.eqb_neq in Hc.
  change (String c s) with (String c "" ++ s)%string.
  constructor; [now constructor | now apply matches_Star_Dot].
Qed.

(** X6. A name made of [kmt_run_], a non-empty part, [_tests_] and any
    rest, without a newline, is returned in full, whatever its length and
    whatever colons it has. *)
Theorem kmt_names_are_kept (x y : string) (max_char_per_job : nat) :
  x <> "" -> no_newline x = true -> no_newline y = true ->
  truncate_job_name ("kmt_run_" ++ x ++ "_tests_" ++ y) max_char_per_job
  = ("kmt_run_" ++ x ++ "_tests_" ++ y)%string.
Proof.
  intros Hx Hnx Hny. unfold truncate_job_name.
  assert (Hm : Re.any_fullmatch jobs_allowed_to_have_full_names
                                ("kmt_run_" ++ x ++ "_tests_" ++ y) = true).
  { unfold Re.any_fullmatch, jobs_allowed_to_have_full_names.
    cbn [existsb]. rewrite orb_false_r. apply fullmatch_matches.
    cbn [Re.Seq].
    constructor; [apply matches_Lit |].
    constructor; [now apply matches_Plus_Dot |].
    constructor; [apply matches_Lit |].
    rewrite <- (string_append_nil_r y).
    constructor; [now apply matches_Star_Dot | constructor]. }
  now rewrite Hm.
Qed.

Lemma kmt_names_are_kept_witness :
  truncate_job_name Ex.kmt_long max_char_per_job_default = Ex.kmt_long
  /\ 48 < String.length Ex.kmt_long
  /\ Str.has_colon Ex.kmt_long = true.
Proof.
  split; [| split; [vm_compute; lia | reflexivity]].
  apply (kmt_names_are_kept "security_agent"
                            "x64: [ubuntu_24.04, distro_x86_64]"
                            max_char_per_job_default).
  - discriminate.
  - reflexivity.
  - reflexivity.
Defined.

(** ** More on grouping *)

Lemma mem_iff (x : string) (l : list string) : Str.mem x l = true <-> In x l.
Proof.
  unfold Str.mem. rewrite existsb_exists. split.
  - intros (y & Hin & Heq). apply String.eqb_eq in Heq. now subst.
  - intros Hin. exists x. split; [exact Hin | apply String.eqb_refl].
Qed.

Lemma mem_ext (x : string) (l l' : list string) :
  (forall y, In y l <-> In y l') -> Str.mem x l = Str.mem x l'.
Proof.
  intros H. destruct (Str.mem x l) eqn:E, (Str.mem x l') eqn:E';
    try reflexivity.
  - apply mem_iff, H, mem_iff in E. congruence.
  - apply mem_iff, H, mem_iff in E'. congruence.
Qed.

Lemma first_occurrences_ext (l seen seen' : list string) :
  (forall y, In y seen <-> In y seen') ->
  first_occurrences seen l = first_occurrences seen' l.
Proof.
  revert seen seen'. induction l as [| x l IH]; simpl; intros seen seen' H.
  - reflexivity.
  - rewrite (mem_ext x seen seen' H).
    destruct (Str.mem x seen'); [now apply IH |].
    f_equal. apply IH. intros y. simpl. rewrite H. tauto.
Qed.

Lemma dict_keys_append_list (d : Dict.t) (k : string) (job : JobExecution) :
  Dict.keys (Dict.append d k job)
  = if Str.mem k (Dict.keys d) then Dict.keys d else Dict.keys d ++ [k].
Proof.
  unfold Dict.keys, Str.mem.
  induction d as [| [k0 jobs] d IH]; simpl.
  - reflexivity.
  - rewrite (String.eqb_sym k k0).
    destruct (String.eqb k0 k); simpl; [reflexivity |].
    rewrite IH. now destruct (existsb (String.eqb k) (map fst d)).
Qed.

Lemma fold_group_step_keys (jobs : list JobExecution) (d : Dict.t) :
  Dict.keys (fold_left group_step jobs d)
  = Dict.keys d
    ++ first_occurrences (Dict.keys d) (map name (filter is_failed jobs)).
Proof.
  revert d. induction jobs as [| job jobs IH]; simpl; intros d.
  - now rewrite app_nil_r.
  - rewrite IH. unfold group_step. destruct (is_failed job); [| reflexivity].
    simpl. rewrite dict_keys_append_list.
    destruct (Str.mem (name job) (Dict.keys d)); [reflexivity |].
    rewrite <- app_assoc. simpl. do 2 f_equal.
    apply first_occurrences_ext. intros y. rewrite in_app_iff. simpl. tauto.
Qed.

Lemma dict_concat_append (d : Dict.t) (k : string) (job : JobExecution) :
  Permutation (concat (map snd (Dict.append d k job)))
              (job :: concat (map snd d)).
Proof.
  induction d as [| [k0 jobs] d IH]; simpl.
  - apply Permutation_refl.
  - destruct (String.eqb k0 k); simpl.
    + rewrite <- app_assoc. simpl. apply Permutation_sym, Permutation_middle.
    + eapply perm_trans; [apply Permutation_app_head, IH |].
      apply Permutation_sym, Permutation_middle.
Qed.

Lemma fold_group_step_concat (jobs : list JobExecution) (d : Dict.t) :
  Permutation (concat (map snd (fold_left group_step jobs d)))
              (concat (map snd d) ++ filter is_failed jobs).
Proof.
  revert d. induction jobs as [| job jobs IH]; simpl; intros d.
  - now rewrite app_nil_r.
  - eapply perm_trans; [apply IH |]. unfold group_step.
    destruct (is_failed job); [| apply Permutation_refl].
    eapply perm_trans;
      [apply Permutation_app_tail, dict_concat_append |].
    simpl. apply Permutation_middle.
Qed.

(** X7. The dictionary built by the first loop of [get_failed_jobs] is a
    partition of the failed executions by name: its keys are the names of
    the failed executions, each once, in the order in which a failed
    execution first bears them; under a name it holds the failed executions
    bearing that name, in input order; and together the groups hold every
    failed execution once and nothing else. *)
Theorem group_failed_partition (jobs : list JobExecution) :
  NoDup (Dict.keys (group_failed jobs))
  /\ Dict.keys (group_failed jobs) = failed_names jobs
  /\ (forall n, Dict.get (group_failed jobs) n = failed_attempts jobs n)
  /\ Permutation (concat (map snd (group_failed jobs))) (filter is_failed jobs).
Proof.
  split; [apply group_failed_wf |]. split; [| split].
  - unfold group_failed, failed_names.
    now rewrite fold_group_step_keys.
  - intros n. unfold group_failed. now rewrite fold_group_step_get.
  - unfold group_failed.
    apply (fold_group_step_concat jobs []).
Qed.

(** ** More on the canonical attempt *)

Lemma insert_all_earlier (job : JobExecution) (l : list JobExecution) :
  (forall j, In j l -> (created_at j < created_at job)%Z) ->
  insert_by_created_at job l = l ++ [job].
Proof.
  induction l as [| a l IH]; simpl; intros H.
  - reflexivity.
  - assert (Ha : (created_at a < created_at job)%Z) by (apply H; now left).
    apply Z.leb_gt in Ha. rewrite Ha. f_equal. apply IH.
    intros j Hj. apply H. now right.
Qed.

Lemma last_job_snoc (l : list JobExecution) (job : JobExecution) :
  last_job (l ++ [job]) = Ok job.
Proof.
  induction l as [| j l IH]; simpl.
  - reflexivity.
  - destruct (l ++ [job]) eqn:E.
    + now destruct l.
    + exact IH.
Qed.

Lemma last_job_cons (j : JobExecution) (l : list JobExecution) :
  l <> [] -> last_job (j :: l) = last_job l.
Proof. destruct l; [congruence | reflexivity]. Qed.

Lemma insert_by_created_at_nonempty (job : JobExecution)
      (l : list JobExecution) :
  insert_by_created_at job l <> [].
Proof.
  destruct l as [| a l]; simpl; [discriminate |].
  destruct (Z.leb (created_at job) (created_at a)); discriminate.
Qed.

Lemma last_job_insert_earlier (job last : JobExecution)
      (l : list JobExecution) :
  last_job l = Ok last ->
  (created_at job <= created_at last)%Z ->
  last_job (insert_by_created_at job l) = Ok last.
Proof.
  induction l as [| a l IH]; intros Hl Hle.
  - discriminate.
  - destruct l as [| b l].
    + injection Hl as ->. simpl. apply Z.leb_le in Hle. now rewrite Hle.
    + change (last_job (a :: b :: l)) with (last_job (b :: l)) in Hl.
      remember (b :: l) as rest eqn:Hrest.
      cbn [insert_by_created_at].
      destruct (Z.leb (created_at job) (created_at a)).
      * rewrite last_job_cons by (subst rest; discriminate).
        rewrite last_job_cons by (subst rest; discriminate).
        exact Hl.
      * rewrite last_job_cons by apply insert_by_created_at_nonempty.
        now apply IH.
Qed.

(** X8. The canonical attempt of a group is the last listed among those
    created latest: an execution that no earlier-listed one was created
    after, and that was created after every later-listed one, is the last
    of the sorted group.  Among attempts with the same creation date the one
    listed last wins. *)
Theorem canonical_is_last_listed_of_latest
        (before after : list JobExecution) (job : JobExecution) :
  (forall j, In j before -> (created_at j <= created_at job)%Z) ->
  (forall j, In j after -> (created_at j < created_at job)%Z) ->
  last_job (sort_by_created_at (before ++ job :: after)) = Ok job.
Proof.
  intros Hbefore Hafter.
  induction before as [| b before IH]; simpl.
  - rewrite insert_all_earlier; [apply last_job_snoc |].
    intros j Hj. apply Hafter.
    eapply Permutation_in; [apply sort_by_created_at_perm | exact Hj].
  - apply last_job_insert_earlier.
    + apply IH. intros j Hj. apply Hbefore. now right.
    + apply Hbefore. now left.
Qed.

Lemma canonical_is_last_listed_of_latest_witness :
  last_job (sort_by_created_at Ex.tied)
  = Ok (Ex.job "e2e" 3 "failed" 20 true).
Proof.
  apply (canonical_is_last_listed_of_latest
           [ Ex.job "e2e" 1 "failed" 10 false;
             Ex.job "e2e" 2 "failed" 20 false ]
           [ Ex.job "e2e" 4 "failed" 15 false ]
           (Ex.job "e2e" 3 "failed" 20 true)).
  - intros j [<- | [<- | []]]; simpl; lia.
  - intros j [<- | []]; simpl; lia.
Defined.

(** ** More on the report *)

Lemma fold_group_step_none (jobs : list JobExecution) (d : Dict.t) :
  (forall job, In job jobs -> status job <> "failed") ->
  fold_left group_step jobs d = d.
Proof.
  revert d. induction jobs as [| job jobs IH]; simpl; intros d H.
  - reflexivity.
  - unfold group_step at 2. unfold is_failed.
    destruct (String.eqb (status job) "failed") eqn:E.
    + apply String.eqb_eq in E. now elim (H job (or_introl eq_refl)).
    + apply IH. intros j Hj. apply H. now right.
Qed.

(** X9. A pipeline in which no job and no bridge has the status [failed]
    gives the empty report, and no trace is asked for: the result does not
    depend on what fetching a trace would answer. *)
Theorem no_failure_empty_report
        (mapping : list (string * FailedJobReason)) (trace : Z -> result string)
        (pipeline : ProjectPipeline) (jobs bridges : list JobExecution) :
  jobs_list pipeline = Ok jobs ->
  bridges_list pipeline = Ok bridges ->
  (forall job, In job (jobs ++ bridges) -> status job <> "failed") ->
  get_failed_jobs mapping trace pipeline = Ok empty_FailedJobs.
Proof.
  intros Hj Hb Hnone. unfold get_failed_jobs. rewrite Hj, Hb. simpl.
  unfold group_failed. now rewrite fold_group_step_none.
Qed.

Lemma no_failure_empty_report_witness :
  get_failed_jobs Ex.mapping Ex.trace_down Ex.green = Ok empty_FailedJobs.
Proof.
  apply (no_failure_empty_report
           Ex.mapping Ex.trace_down Ex.green
           [ Ex.job "build" 1 "success" 10 false;
             Ex.job "lint" 2 "skipped" 11 true ]
           [ Ex.bridge "deploy" 3 "success" 12 ]).
  - reflexivity.
  - reflexivity.
  - intros job [<- | [<- | [<- | []]]]; discriminate.
Defined.

Lemma process_group_ext (mapping : list (string * FailedJobReason))
      (trace1 trace2 : Z -> result string) (acc : FailedJobs) (n : string)
      (group : list JobExecution) :
  (forall job, last_job (sort_by_created_at group) = Ok job ->
               is_bridge job = false -> trace1 (id job) = trace2 (id job)) ->
  process_group mapping trace1 acc n group
  = process_group mapping trace2 acc n group.
Proof.
  intros H. unfold process_group.
  destruct (last_job (sort_by_created_at group)) as [job |]; [| reflexivity].
  simpl. destruct (is_bridge job) eqn:Eb; simpl; [reflexivity |].
  now rewrite (H job eq_refl Eb).
Qed.

Lemma process_groups_ext (mapping : list (string * FailedJobReason))
      (trace1 trace2 : Z -> result string) (groups : Dict.t)
      (acc : FailedJobs) :
  (forall n group job,
      In (n, group) groups ->
      last_job (sort_by_created_at group) = Ok job ->
      is_bridge job = false -> trace1 (id job) = trace2 (id job)) ->
  process_groups mapping trace1 groups acc
  = process_groups mapping trace2 groups acc.
Proof.
  revert acc. induction groups as [| [n0 g0] groups IH]; simpl; intros acc H.
  - reflexivity.
  - rewrite (process_group_ext mapping trace1 trace2 acc n0 g0).
    + destruct (process_group mapping trace2 acc n0 g0); simpl;
        [| reflexivity].
      apply IH. intros n group job Hin. apply (H n group job). now right.
    + intros job. apply (H n0 g0 job). now left.
Qed.

(** X10. Traces are fetched for the canonical attempts of the failed
    groups only, and never for a bridge: two ways of answering the fetch
    that agree on the ids of those attempts give the same result, report or
    exception. *)
Theorem get_failed_jobs_fetches_canonical_only
        (mapping : list (string * FailedJobReason))
        (trace1 trace2 : Z -> result string)
        (pipeline : ProjectPipeline) (jobs bridges : list JobExecution) :
  jobs_list pipeline = Ok jobs ->
  bridges_list pipeline = Ok bridges ->
  (forall n job,
      last_job (sort_by_created_at (failed_attempts (jobs ++ bridges) n))
      = Ok job ->
      is_bridge job = false -> trace1 (id job) = trace2 (id job)) ->
  get_failed_jobs mapping trace1 pipeline
  = get_failed_jobs mapping trace2 pipeline.
Proof.
  intros Hj Hb H. unfold get_failed_jobs. rewrite Hj, Hb. simpl.
  apply process_groups_ext. intros n group job Hin.
  apply group_failed_spec in Hin. destruct Hin as [-> _]. apply H.
Qed.

Lemma get_failed_jobs_fetches_canonical_only_witness :
  get_failed_jobs Ex.mapping Ex.trace_ok Ex.two_failed
  = get_failed_jobs Ex.mapping Ex.trace_two Ex.two_failed.
Proof.
  apply (get_failed_jobs_fetches_canonical_only
           Ex.mapping Ex.trace_ok Ex.trace_two Ex.two_failed
           [ Ex.job "build:amd64" 1 "failed" 10 false;
             Ex.job "build:arm64" 2 "failed" 11 false ]
           [ Ex.bridge "deploy" 3 "failed" 12 ]).
  - reflexivity.
  - reflexivity.
  - intros n job Hjob Hbridge.
    assert (Hin : In job (failed_attempts
                            ([ Ex.job "build:amd64" 1 "failed" 10 false;
                               Ex.job "build:arm64" 2 "failed" 11 false ]
                               ++ [ Ex.bridge "deploy" 3 "failed" 12 ]) n)).
    { eapply Permutation_in; [apply sort_by_created_at_perm |].
      now apply last_job_in. }
    apply failed_attempts_failed in Hin. destruct Hin as [Hin _].
    destruct Hin as [<- | [<- | [<- | []]]];
      [reflexivity | reflexivity | discriminate Hbridge].
Defined.




(** X12. Every entry of a report stands for a failed execution of the
    pipeline: there is an execution with the status [failed] whose name is
    the entry's [full_name] and whose id, stage, URL and [allow_failure] the
    entry carries; the entry's classification is that of
    [get_job_failure_context] for this execution and the trace fetched for
    it (the empty trace for a bridge), and its tags are the execution's,
    none for a bridge. *)
Theorem report_entries_are_failed_executions
        (mapping : list (string * FailedJobReason)) (trace : Z -> result string)
        (pipeline : ProjectPipeline) (jobs bridges : list JobExecution)
        (report : FailedJobs) (entry : FinalJobStatus) :
  jobs_list pipeline = Ok jobs ->
  bridges_list pipeline = Ok bridges ->
  get_failed_jobs mapping trace pipeline = Ok report ->
  In entry (all_failures report) ->
  exists job log,
    In job (jobs ++ bridges)
    /\ status job = "failed"
    /\ name job = fj_full_name entry
    /\ id job = fj_id entry
    /\ stage job = fj_stage entry
    /\ web_url job = fj_web_url entry
    /\ allow_failure job = fj_allow_failure entry
    /\ job_log trace job = Ok log
    /\ get_job_failure_context mapping job log
       = (fj_failure_type entry, fj_failure_reason entry)
    /\ fj_tag_list entry = (if is_bridge job then [] else tag_list job).
Proof.
  intros Hj Hb Hr Hin.
  destruct (get_failed_jobs_entries mapping trace pipeline jobs bridges report
                                    Hj Hb Hr) as (Hx & _ & Hm).
  unfold all_failures in Hin. rewrite Hx, app_nil_r in Hin.
  apply Hm in Hin. destruct Hin as (n & _ & (job & log & Hjob & Hlog & ->) & _).
  exists job, log.
  apply last_job_in in Hjob.
  apply (Permutation_in _ (sort_by_created_at_perm _)) in Hjob.
  apply failed_attempts_failed in Hjob. destruct Hjob as (Hin & Hs & Hn).
  unfold final_status_of.
  destruct (get_job_failure_context mapping job log) as [t r]. simpl.
  repeat split; try assumption; try reflexivity.
  now destruct (is_bridge job).
Qed.

Lemma report_entries_are_failed_executions_witness :
  exists report entry job log,
    get_failed_jobs Ex.mapping Ex.trace_ok Ex.two_failed = Ok report
    /\ In entry (all_failures report)
    /\ fj_full_name entry = "deploy"
    /\ name job = fj_full_name entry
    /\ id job = fj_id entry
    /\ job_log Ex.trace_ok job = Ok log.
Proof.
  destruct (get_failed_jobs Ex.mapping Ex.trace_ok Ex.two_failed)
    as [report |] eqn:E; [| discriminate E].
  assert (Hin : In (final_status_of Ex.mapping "deploy"
                                    [Ex.bridge "deploy" 3 "failed" 12]
                                    (Ex.bridge "deploy" 3 "failed" 12) "")
                   (all_failures report)).
  { vm_compute in E. injection E as <-. simpl. auto. }
  destruct (report_entries_are_failed_executions
              Ex.mapping Ex.trace_ok Ex.two_failed
              [ Ex.job "build:amd64" 1 "failed" 10 false;
                Ex.job "build:arm64" 2 "failed" 11 false ]
              [ Ex.bridge "deploy" 3 "failed" 12 ] report _
              eq_refl eq_refl E Hin)
    as (job & log & _ & _ & Hn & Hi & _ & _ & _ & Hl & _).
  exists report,
         (final_status_of Ex.mapping "deploy"
                          [Ex.bridge "deploy" 3 "failed" 12]
                          (Ex.bridge "deploy" 3 "failed" 12) ""),
         job, log.
  split; [reflexivity |]. split; [exact Hin |]. split; [reflexivity |].
  auto.
Defined.

(** X13. A failed execution is not lost: when the report is built, the
    name of a failed execution is reported as soon as none of the failed
    executions bearing that name is allowed to fail. *)
Theorem failed_job_is_reported
        (mapping : list (string * FailedJobReason)) (trace : Z -> result string)
        (pipeline : ProjectPipeline) (jobs bridges : list JobExecution)
        (report : FailedJobs) (job : JobExecution) :
  jobs_list pipeline = Ok jobs ->
  bridges_list pipeline = Ok bridges ->
  get_failed_jobs mapping trace pipeline = Ok report ->
  In job (jobs ++ bridges) ->
  status job = "failed" ->
  (forall other, In other (jobs ++ bridges) ->
                 name other = name job -> status other = "failed" ->
                 allow_failure other = false) ->
  exists entry,
    In entry (all_mandatory_failures report)
    /\ fj_full_name entry = name job
    /\ fj_status entry = "failed".
Proof.
  intros Hj Hb Hr Hin Hs Hstrict.
  destruct (get_failed_jobs_entries mapping trace pipeline jobs bridges report
                                    Hj Hb Hr) as (_ & He & Hm).
  assert (Hne : failed_attempts (jobs ++ bridges) (name job) <> []).
  { intros E.
    assert (Hjob : In job (failed_attempts (jobs ++ bridges) (name job))).
    { unfold failed_attempts. apply filter_In. split; [exact Hin |].
      unfold is_failed. rewrite Hs. simpl. apply String.eqb_refl. }
    rewrite E in Hjob. exact Hjob. }
  destruct (He _ Hne) as [entry Hentry].
  pose proof Hentry as (canonical & log & Hc & _ & _).
  destruct (entry_of_fields _ _ _ _ _ _ Hentry Hc)
    as (H1 & H2 & _ & H4 & H5 & _).
  apply last_job_in in Hc.
  apply (Permutation_in _ (sort_by_created_at_perm _)) in Hc.
  apply failed_attempts_failed in Hc. destruct Hc as (Hcin & Hcs & Hcn).
  exists entry. split; [| split; [exact H2 | congruence]].
  unfold all_mandatory_failures. apply Hm.
  exists (name job). split; [exact Hne |]. split; [exact Hentry |].
  apply should_report_job_true. left.
  rewrite H5. now apply Hstrict.
Qed.

Lemma failed_job_is_reported_witness :
  exists report entry,
    get_failed_jobs Ex.mapping Ex.trace_ok Ex.lint_and_build = Ok report
    /\ In entry (all_mandatory_failures report)
    /\ fj_full_name entry = "build".
Proof.
  destruct (get_failed_jobs Ex.mapping Ex.trace_ok Ex.lint_and_build)
    as [report |] eqn:E; [| discriminate E].
  destruct (failed_job_is_reported
              Ex.mapping Ex.trace_ok Ex.lint_and_build
              [ Ex.job "lint" 1 "failed" 10 true;
                Ex.job "build" 2 "failed" 11 false ] [] report
              (Ex.job "build" 2 "failed" 11 false)
              eq_refl eq_refl E) as (entry & Hin & Hn & _).
  - simpl. auto.
  - reflexivity.
  - intros other [<- | [<- | []]] Hname _; [discriminate Hname | reflexivity].
  - exists report, entry. split; [reflexivity |]. split; assumption.
Defined.









Lemma last_map_status (l : list JobExecution) (job : JobExecution) :
  last_job l = Ok job -> last (map status l) "" = status job.
Proof.
  induction l as [| a l IH]; intros H.
  - discriminate.
  - destruct l as [| b l].
    + injection H as ->. reflexivity.
    + change (last (map status (a :: b :: l)) "")
        with (last (map status (b :: l)) "").
      now apply IH.
Qed.

(** X15. In every entry of a report the retry summary is not empty, its
    last status is the status of the entry, and that status is [failed]. *)
Theorem retry_summary_ends_with_status
        (mapping : list (string * FailedJobReason)) (trace : Z -> result string)
        (pipeline : ProjectPipeline) (report : FailedJobs)
        (entry : FinalJobStatus) :
  get_failed_jobs mapping trace pipeline = Ok report ->
  In entry (all_failures report) ->
  fj_retry_summary entry <> []
  /\ last (fj_retry_summary entry) "" = fj_status entry
  /\ fj_status entry = "failed".
Proof.
  intros Hr Hin. pose proof Hr as Hr'. unfold get_failed_jobs in Hr'.
  destruct (jobs_list pipeline) as [jobs |] eqn:Hj; [| discriminate Hr'].
  destruct (bridges_list pipeline) as [bridges |] eqn:Hb; [| discriminate Hr'].
  clear Hr'.
  destruct (get_failed_jobs_entries mapping trace pipeline jobs bridges report
                                    Hj Hb Hr) as (Hx & _ & Hm).
  unfold all_failures in Hin. rewrite Hx, app_nil_r in Hin.
  apply Hm in Hin. destruct Hin as (n & _ & Hentry & _).
  pose proof Hentry as (job & log & Hjob & _ & _).
  destruct (entry_of_fields _ _ _ _ _ _ Hentry Hjob)
    as (_ & _ & _ & H4 & _ & H6).
  rewrite H6, H4. split; [| split].
  - intros E. apply map_eq_nil in E. rewrite E in Hjob. discriminate Hjob.
  - now apply last_map_status.
  - apply last_job_in in Hjob.
    apply (Permutation_in _ (sort_by_created_at_perm _)) in Hjob.
    now apply failed_attempts_failed in Hjob.
Qed.

Lemma retry_summary_ends_with_status_witness :
  exists report entry,
    get_failed_jobs Ex.mapping Ex.trace_ok Ex.thrice = Ok report
    /\ In entry (all_failures report)
    /\ last (fj_retry_summary entry) "" = fj_status entry.
Proof.
  destruct (get_failed_jobs Ex.mapping Ex.trace_ok Ex.thrice)
    as [report |] eqn:E; [| discriminate E].
  pose (entry := final_status_of
                   Ex.mapping "e2e"
                   [ Ex.job "e2e" 5 "failed" 10 false;
                     Ex.job "e2e" 6 "failed" 20 false;
                     Ex.job "e2e" 7 "failed" 30 false ]
                   (Ex.job "e2e" 7 "failed" 30 false)
                   "make: *** [test] Error 1").
  assert (Hin : In entry (all_failures report)).
  { vm_compute in E. injection E as <-. simpl. auto. }
  exists report, entry. split; [reflexivity |]. split; [exact Hin |].
  apply (retry_summary_ends_with_status
           Ex.mapping Ex.trace_ok Ex.thrice report entry E Hin).
Defined.

Lemma retry_summary_of_failed_attempts_witness :
  exists report entry,
    get_failed_jobs Ex.mapping Ex.trace_ok Ex.unstable = Ok report
    /\ In entry (all_failures report)
    /\ length (fj_retry_summary entry)
       = length (failed_attempts
                   [ Ex.job "e2e" 1 "failed" 10 false;
                     Ex.job "e2e" 2 "success" 20 false;
                     Ex.job "e2e" 3 "failed" 30 false ]
                   (fj_full_name entry)).
Proof.
  destruct (get_failed_jobs Ex.mapping Ex.trace_ok Ex.unstable)
    as [report |] eqn:E; [| discriminate E].
  pose (entry := final_status_of
                   Ex.mapping "e2e"
                   [ Ex.job "e2e" 1 "failed" 10 false;
                     Ex.job "e2e" 3 "failed" 30 false ]
                   (Ex.job "e2e" 3 "failed" 30 false)
                   "make: *** [test] Error 1").
  assert (Hin : In entry (all_failures report)).
  { vm_compute in E. injection E as <-. simpl. auto. }
  exists report, entry. split; [reflexivity |]. split; [exact Hin |].
  apply (retry_summary_of_failed_attempts
           Ex.mapping Ex.trace_ok Ex.unstable
           [ Ex.job "e2e" 1 "failed" 10 false;
             Ex.job "e2e" 2 "success" 20 false;
             Ex.job "e2e" 3 "failed" 30 false ] [] report entry
           eq_refl eq_refl E Hin).
Defined.

Lemma NoDup_map_filter (A B : Type) (key : A -> B) (f : A -> bool)
      (l : list A) :
  NoDup (map key l) -> NoDup (map key (filter f l)).
Proof.
  induction l as [| a l IH]; simpl; intros H.
  - constructor.
  - inversion H as [| ? ? Hnotin Hnd]; subst.
    destruct (f a); simpl; [| now apply IH].
    constructor; [| now apply IH].
    intros Hin. apply Hnotin.
    apply in_map_iff in Hin. destruct Hin as (x & <- & Hx).
    apply filter_In in Hx. apply in_map. tauto.
Qed.

Lemma get_failed_jobs_order_independent_witness :
  exists report1 report2,
    get_failed_jobs Ex.mapping Ex.trace_ok Ex.thrice = Ok report1
    /\ get_failed_jobs Ex.mapping Ex.trace_ok Ex.thrice_shuffled = Ok report2
    /\ forall entry,
        In entry (all_failures report1) <-> In entry (all_failures report2).
Proof.
  destruct (get_failed_jobs Ex.mapping Ex.trace_ok Ex.thrice)
    as [report1 |] eqn:E1; [| discriminate E1].
  destruct (get_failed_jobs Ex.mapping Ex.trace_ok Ex.thrice_shuffled)
    as [report2 |] eqn:E2; [| discriminate E2].
  exists report1, report2. split; [reflexivity |]. split; [reflexivity |].
  apply (get_failed_jobs_order_independent
           Ex.mapping Ex.trace_ok Ex.thrice Ex.thrice_shuffled
           [ Ex.job "e2e" 7 "failed" 30 false;
             Ex.job "e2e" 5 "failed" 10 false;
             Ex.job "e2e" 6 "failed" 20 false ] []
           [ Ex.job "e2e" 5 "failed" 10 false;
             Ex.job "e2e" 6 "failed" 20 false;
             Ex.job "e2e" 7 "failed" 30 false ] []
           report1 report2 eq_refl eq_refl eq_refl eq_refl).
  - rewrite !app_nil_r.
    apply (Permutation_cons_append
             [ Ex.job "e2e" 5 "failed" 10 false;
               Ex.job "e2e" 6 "failed" 20 false ]
             (Ex.job "e2e" 7 "failed" 30 false)).
  - intros n. unfold failed_attempts. apply NoDup_map_filter.
    simpl. repeat constructor; simpl; intuition discriminate.
  - exact E1.
  - exact E2.
Defined.

(** ** More on the pull-request skip correlator *)

Lemma existsb_perm (A : Type) (f : A -> bool) (l l' : list A) :
  Permutation l l' -> existsb f l = existsb f l'.
Proof.
  intros Hp.
  destruct (existsb f l) eqn:E, (existsb f l') eqn:E'; try reflexivity.
  - apply existsb_exists in E. destruct E as (x & Hin & Hx).
    assert (existsb f l' = true)
      by (apply existsb_exists; exists x; split;
          [eapply Permutation_in; eassumption | exact Hx]).
    congruence.
  - apply existsb_exists in E'. destruct E' as (x & Hin & Hx).
    assert (existsb f l = true)
      by (apply existsb_exists; exists x; split;
          [eapply Permutation_in; [apply Permutation_sym |]; eassumption
          | exact Hx]).
    congruence.
Qed.

(** X18. The order in which the pull-request pipeline lists its executions
    does not change the skipped jobs, although the scan of the executions
    stops at the first unfinished one. *)
Theorem correlate_ignores_pr_job_order
        (pr_jobs pr_jobs' : list JobExecution)
        (failures : list FinalJobStatus) (missed_jobs : list string) :
  Permutation pr_jobs pr_jobs' ->
  correlate pr_jobs failures missed_jobs
  = correlate pr_jobs' failures missed_jobs.
Proof.
  intros Hp. rewrite !correlate_spec. do 2 f_equal.
  apply filter_ext. intros failed_job. unfold skipped_on_pr.
  now rewrite (existsb_perm _ _ _ _ Hp), (existsb_perm _ _ pr_jobs pr_jobs' Hp).
Qed.

Lemma correlate_ignores_pr_job_order_witness :
  correlate [ Ex.job "build" 1 "success" 1 false;
              Ex.job "build" 2 "running" 2 false ]
            [ final_status_of Ex.mapping "build" []
                              (Ex.job "build" 9 "failed" 1 false) "" ] []
  = correlate [ Ex.job "build" 2 "running" 2 false;
                Ex.job "build" 1 "success" 1 false ]
              [ final_status_of Ex.mapping "build" []
                                (Ex.job "build" 9 "failed" 1 false) "" ] [].
Proof.
  apply correlate_ignores_pr_job_order. apply perm_swap.
Defined.

(** X19. Each mandatory failure is judged on its own and gives at most one
    name: the skipped jobs of two lists of failures put end to end are the
    skipped jobs of the first followed by those of the second, after the
    names already collected, and there are no more skipped jobs than
    failures. *)
Theorem correlate_app
        (pr_jobs : list JobExecution) (failures1 failures2 : list FinalJobStatus)
        (missed_jobs : list string) :
  correlate pr_jobs (failures1 ++ failures2) missed_jobs
  = missed_jobs ++ correlate pr_jobs failures1 []
                ++ correlate pr_jobs failures2 []
  /\ length (correlate pr_jobs failures1 []) <= length failures1.
Proof.
  rewrite !correlate_spec. simpl. split.
  - now rewrite filter_app, map_app.
  - rewrite length_map. apply filter_length_le.
Qed.

Lemma correlate_none_skipped (pr_jobs : list JobExecution)
      (failures : list FinalJobStatus) :
  (forall entry, In entry failures ->
                 exists job, In job pr_jobs /\ name job = fj_full_name entry) ->
  (forall job, In job pr_jobs ->
               status job = "failed" \/ status job = "success") ->
  correlate pr_jobs failures [] = [].
Proof.
  intros Hborne Hdone. rewrite correlate_spec. simpl.
  induction failures as [| entry l IH]; simpl.
  - reflexivity.
  - assert (Hnot : skipped_on_pr pr_jobs entry = false).
    { apply skipped_on_pr_false. split.
      - apply Hborne. now left.
      - intros job Hjob _. now apply Hdone. }
    rewrite Hnot. apply IH. intros e He. apply Hborne. now right.
Qed.

(** X20. Correlating the report of a pipeline with the executions of that
    same pipeline gives no skipped job when all of them are [failed] or
    [success]: every reported full name is borne by an execution of the
    pipeline, so nothing is judged absent. *)
Theorem own_pipeline_skips_nothing
        (mapping : list (string * FailedJobReason)) (trace : Z -> result string)
        (pipeline : ProjectPipeline) (jobs bridges : list JobExecution)
        (report : FailedJobs) :
  jobs_list pipeline = Ok jobs ->
  bridges_list pipeline = Ok bridges ->
  get_failed_jobs mapping trace pipeline = Ok report ->
  (forall job, In job (jobs ++ bridges) ->
               status job = "failed" \/ status job = "success") ->
  correlate (jobs ++ bridges) (all_mandatory_failures report) [] = [].
Proof.
  intros Hj Hb Hr Hdone. apply correlate_none_skipped; [| exact Hdone].
  intros entry Hin.
  destruct (get_failed_jobs_entries mapping trace pipeline jobs bridges report
                                    Hj Hb Hr) as (_ & _ & Hm).
  apply Hm in Hin. destruct Hin as (n & _ & Hentry & _).
  pose proof Hentry as (job & log & Hjob & _ & _).
  destruct (entry_of_full_name _ _ _ _ _ Hentry) as [Hfull _].
  apply last_job_in in Hjob.
  apply (Permutation_in _ (sort_by_created_at_perm _)) in Hjob.
  apply failed_attempts_failed in Hjob. destruct Hjob as (Hjin & _ & Hn).
  exists job. split; [exact Hjin | congruence].
Qed.

Lemma own_pipeline_skips_nothing_witness :
  exists report,
    get_failed_jobs Ex.mapping Ex.trace_ok Ex.retried = Ok report
    /\ correlate [ Ex.job "unit_tests" 1 "failed" 10 false;
                   Ex.job "unit_tests" 2 "success" 20 false ]
                 (all_mandatory_failures report) [] = [].
Proof.
  destruct (get_failed_jobs Ex.mapping Ex.trace_ok Ex.retried)
    as [report |] eqn:E; [| discriminate E].
  exists report. split; [reflexivity |].
  apply (own_pipeline_skips_nothing
           Ex.mapping Ex.trace_ok Ex.retried
           [ Ex.job "unit_tests" 1 "failed" 10 false;
             Ex.job "unit_tests" 2 "success" 20 false ] [] report
           eq_refl eq_refl E).
  intros job [<- | [<- | []]]; simpl; auto.
Defined.



(** X22. The correlator names a skipped job only when the commit has
    exactly one pull request and the branch of that pull request has a
    pipeline: it has then printed nothing, and the URL it returns is that of
    the first pipeline listed for the branch. *)
Theorem skipped_jobs_need_one_pull_request
        (get_pulls : string -> result (list PullRequest))
        (pipelines_list : string -> result (list ProjectPipeline))
        (pipeline : ProjectPipeline) (failed_jobs : FailedJobs)
        (printed : list message) (skipped : list string) (url : string) :
  get_jobs_skipped_on_pr get_pulls pipelines_list pipeline failed_jobs
  = (printed, Ok (skipped, url)) ->
  skipped <> [] ->
  printed = []
  /\ exists pr pr_pipeline others,
      get_pulls (sha pipeline) = Ok [pr]
      /\ pipelines_list (head_ref pr) = Ok (pr_pipeline :: others)
      /\ url = pipeline_web_url pr_pipeline.
Proof.
  unfold get_jobs_skipped_on_pr. intros H Hne.
  destruct (get_pulls (sha pipeline)) as [prs | e1]; [| discriminate H].
  destruct prs as [| pr [| pr2 prs]]; simpl in H.
  - injection H as _ <- _. now elim Hne.
  - destruct (pipelines_list (head_ref pr)) as [pipelines | e2] eqn:Epipes;
      [| discriminate H].
    destruct pipelines as [| pr_pipeline others]; simpl in H.
    + injection H as _ <- _. now elim Hne.
    + destruct (jobs_list pr_pipeline) as [jobs |]; [| discriminate H].
      destruct (bridges_list pr_pipeline) as [bridges |]; [| discriminate H].
      simpl in H. injection H as <- _ <-.
      split; [reflexivity |]. exists pr, pr_pipeline, others. auto.
  - injection H as _ <- _. now elim Hne.
Qed.

Lemma skipped_jobs_need_one_pull_request_witness :
  exists report pr pr_pipeline others,
    get_failed_jobs Ex.mapping Ex.trace_ok Ex.two_failed = Ok report
    /\ Ex.one_pr (sha Ex.two_failed) = Ok [pr]
    /\ Ex.pr_pipelines (head_ref pr) = Ok (pr_pipeline :: others)
    /\ "https://ci/pipeline/2" = pipeline_web_url pr_pipeline.
Proof.
  destruct (get_failed_jobs Ex.mapping Ex.trace_ok Ex.two_failed)
    as [report |] eqn:E; [| discriminate E].
  assert (Hs : get_jobs_skipped_on_pr Ex.one_pr Ex.pr_pipelines
                                      Ex.two_failed report
               = ([], Ok (["build"; "deploy"], "https://ci/pipeline/2"))).
  { vm_compute in E. injection E as <-. reflexivity. }
  destruct (skipped_jobs_need_one_pull_request
              Ex.one_pr Ex.pr_pipelines Ex.two_failed report
              [] ["build"; "deploy"] "https://ci/pipeline/2" Hs)
    as (_ & pr & pr_pipeline & others & H1 & H2 & H3).
  - discriminate.
  - exists report, pr, pr_pipeline, others. auto.
Defined.

(** ** More on the entries of a report *)

(** X23. With the empty list [jobs_allowed_to_fail_but_need_report] of the
    module, no entry of a report is allowed to fail. *)
Theorem report_has_no_allowed_failure
        (mapping : list (string * FailedJobReason)) (trace : Z -> result string)
        (pipeline : ProjectPipeline) (report : FailedJobs)
        (entry : FinalJobStatus) :
  get_failed_jobs mapping trace pipeline = Ok report ->
  In entry (all_failures report) ->
  fj_allow_failure entry = false.
Proof.
  intros Hr Hin. pose proof Hr as Hr'. unfold get_failed_jobs in Hr'.
  destruct (jobs_list pipeline) as [jobs |] eqn:Hj; [| discriminate Hr'].
  destruct (bridges_list pipeline) as [bridges |] eqn:Hb; [| discriminate Hr'].
  clear Hr'.
  destruct (get_failed_jobs_entries mapping trace pipeline jobs bridges report
                                    Hj Hb Hr) as (Hx & _ & Hm).
  unfold all_failures in Hin. rewrite Hx, app_nil_r in Hin.
  apply Hm in Hin. destruct Hin as (n & _ & _ & Hrep).
  apply should_report_job_true in Hrep. destruct Hrep as [H | H].
  - exact H.
  - discriminate H.
Qed.

Lemma report_has_no_allowed_failure_witness :
  exists report,
    get_failed_jobs Ex.mapping Ex.trace_ok Ex.lint_and_build = Ok report
    /\ map fj_allow_failure (all_failures report) = [false].
Proof.
  destruct (get_failed_jobs Ex.mapping Ex.trace_ok Ex.lint_and_build)
    as [report |] eqn:E; [| discriminate E].
  pose (entry := final_status_of
                   Ex.mapping "build" [Ex.job "build" 2 "failed" 11 false]
                   (Ex.job "build" 2 "failed" 11 false)
                   "make: *** [test] Error 1").
  assert (Hall : all_failures report = [entry]).
  { vm_compute in E. injection E as <-. reflexivity. }
  assert (Hin : In entry (all_failures report))
    by (rewrite Hall; now left).
  pose proof (report_has_no_allowed_failure
                Ex.mapping Ex.trace_ok Ex.lint_and_build report entry E Hin)
    as H.
  exists report. split; [reflexivity |].
  rewrite Hall. cbn [map]. now rewrite H.
Defined.

(** X24. An entry of a report classified BRIDGE_FAILURE is the entry of a
    failed bridge: it has the reason FAILED_BRIDGE_JOB and no tags, and a
    bridge of the pipeline has its id and name. *)
Theorem bridge_entries_have_no_tags
        (mapping : list (string * FailedJobReason)) (trace : Z -> result string)
        (pipeline : ProjectPipeline) (jobs bridges : list JobExecution)
        (report : FailedJobs) (entry : FinalJobStatus) :
  jobs_list pipeline = Ok jobs ->
  bridges_list pipeline = Ok bridges ->
  get_failed_jobs mapping trace pipeline = Ok report ->
  In entry (all_failures report) ->
  fj_failure_type entry = BRIDGE_FAILURE ->
  fj_failure_reason entry = FAILED_BRIDGE_JOB
  /\ fj_tag_list entry = []
  /\ exists job, In job (jobs ++ bridges)
                 /\ is_bridge job = true
                 /\ id job = fj_id entry
                 /\ name job = fj_full_name entry.
Proof.
  intros Hj Hb Hr Hin Htype.
  destruct (get_failed_jobs_entries mapping trace pipeline jobs bridges report
                                    Hj Hb Hr) as (Hx & _ & Hm).
  unfold all_failures in Hin. rewrite Hx, app_nil_r in Hin.
  apply Hm in Hin. destruct Hin as (n & _ & (job & log & Hjob & _ & ->) & _).
  apply last_job_in in Hjob.
  apply (Permutation_in _ (sort_by_created_at_perm _)) in Hjob.
  apply failed_attempts_failed in Hjob. destruct Hjob as (Hjin & _ & Hn).
  unfold final_status_of in *. unfold get_job_failure_context in *.
  destruct (is_bridge job) eqn:Eb.
  - simpl. split; [reflexivity |]. split; [reflexivity |].
    exists job. auto.
  - exfalso.
    destruct (infra_mapped_reason mapping job); [discriminate Htype |].
    destruct (get_infra_failure_info log); discriminate Htype.
Qed.

Lemma bridge_entries_have_no_tags_witness :
  exists report entry,
    get_failed_jobs Ex.mapping Ex.trace_ok Ex.two_failed = Ok report
    /\ In entry (all_failures report)
    /\ fj_full_name entry = "deploy"
    /\ fj_tag_list entry = [].
Proof.
  destruct (get_failed_jobs Ex.mapping Ex.trace_ok Ex.two_failed)
    as [report |] eqn:E; [| discriminate E].
  pose (entry := final_status_of Ex.mapping "deploy"
                                 [Ex.bridge "deploy" 3 "failed" 12]
                                 (Ex.bridge "deploy" 3 "failed" 12) "").
  assert (Hin : In entry (all_failures report)).
  { vm_compute in E. injection E as <-. simpl. auto. }
  destruct (bridge_entries_have_no_tags
              Ex.mapping Ex.trace_ok Ex.two_failed
              [ Ex.job "build:amd64" 1 "failed" 10 false;
                Ex.job "build:arm64" 2 "failed" 11 false ]
              [ Ex.bridge "deploy" 3 "failed" 12 ] report entry
              eq_refl eq_refl E Hin eq_refl) as (_ & Htags & _).
  exists report, entry. split; [reflexivity |]. split; [exact Hin |].
  split; [reflexivity | exact Htags].
Defined.
